(** * Sandboxed execution engine: CodeExecutor and SimpleSandbox

    A shallow embedding of [src/execution/sandbox.ts]: the program text that
    [wrapCode] generates, the console capture it installs, the handlers
    that [executeInWorker] registers on the worker and on its deadline
    timer, the normalisation done by [execute], and the in-process
    [SimpleSandbox].

    No semantics of JavaScript itself is embedded.  A code fragment is
    carried with its source text and with what this text does in one run:
    the steps it takes that matter to the engine (console calls, messages
    it posts on the unit's port, changes it makes to the array of captured
    lines, files it writes or removes), the declaration of [logs] it may
    bring along, and the way it ends.  The generated program pastes the
    fragment into its own scope, so all of these are within the reach of
    a fragment, and the statements below say which of them they rule out.

    Around the engine, the development also covers its caller, the
    handler of the [execute_pendo_code] tool, and the collaborators of the
    repository: the sliding-window [RateLimiter], the file-based
    [QueryCache] with its [cached] decorator, the names made by the
    wrapper generator, and the list-shaping steps of the skills. *)

From stdpp Require Import base strings list gmap pretty sorting.
From Stdlib Require Import ZArith Lia Ascii.

Set Warnings "-register-all".

Open Scope Z_scope.
Open Scope string_scope.

(** ** JavaScript values handed to the console *)

Module JS.

(** Values are finite trees, so [JSON.stringify] never meets a cycle.
    [Num n] is the number whose value is the integer [n]; an object lists
    its own enumerable properties in the order in which the engine
    enumerates them. *)
Inductive value :=
| Undefined
| Null
| Bool (b : bool)
| Num (n : Z)
| Str (s : string)
| Arr (items : list value)
| Obj (props : list (string * value)).

Inductive type_tag := TUndefined | TObject | TBoolean | TNumber | TString.

#[global] Instance type_tag_eq_dec : EqDecision type_tag.
Proof. solve_decision. Defined.

(** [typeof v]; note that [typeof null] is ['object']. *)
Definition typeof (v : value) : type_tag :=
  match v with
  | Undefined => TUndefined
  | Null | Arr _ | Obj _ => TObject
  | Bool _ => TBoolean
  | Num _ => TNumber
  | Str _ => TString
  end.

Definition dquote : ascii := "034"%char.
Definition backslash : ascii := "092"%char.
Definition newline : string := String "010"%char "".

Definition of_bool (b : bool) : string := if b then "true" else "false".

(** [String(v)]. *)
Fixpoint to_String (v : value) : string :=
  match v with
  | Undefined => "undefined"
  | Null => "null"
  | Bool b => of_bool b
  | Num n => pretty n
  | Str s => s
  | Arr items =>
      String.concat ","
        (map (fun x => match x with
                       | Undefined | Null => ""
                       | _ => to_String x
                       end) items)
  | Obj _ => "[object Object]"
  end.

Definition hex_digit (n : N) : ascii :=
  ascii_of_N (if (n <? 10)%N then 48 + n else 87 + n)%N.

(** One character of a JSON string literal. *)
Definition json_char (c : ascii) : string :=
  let n := N_of_ascii c in
  if (n =? 34)%N then String backslash (String dquote "")
  else if (n =? 92)%N then String backslash (String backslash "")
  else if (n =? 8)%N then String backslash "b"
  else if (n =? 12)%N then String backslash "f"
  else if (n =? 10)%N then String backslash "n"
  else if (n =? 13)%N then String backslash "r"
  else if (n =? 9)%N then String backslash "t"
  else if (n <? 32)%N then
    String backslash
      (String "u" (String "0" (String "0"
        (String (hex_digit (n / 16)) (String (hex_digit (n mod 16)) "")))))
  else String c "".

Fixpoint json_chars (s : string) : string :=
  match s with
  | EmptyString => ""
  | String c s' => json_char c +:+ json_chars s'
  end.

Definition json_quote (s : string) : string :=
  String dquote (json_chars s +:+ String dquote "").

(** [JSON.stringify(v)]: [None] stands for the result [undefined]. *)
Fixpoint JSON_stringify (v : value) : option string :=
  match v with
  | Undefined => None
  | Null => Some "null"
  | Bool b => Some (of_bool b)
  | Num n => Some (pretty n)
  | Str s => Some (json_quote s)
  | Arr items =>
      Some ("[" +:+
            String.concat ","
              (map (fun x => default "null" (JSON_stringify x)) items)
            +:+ "]")
  | Obj props =>
      Some ("{" +:+
            String.concat ","
              (omap (fun p => match JSON_stringify (snd p) with
                              | Some t => Some (json_quote (fst p) +:+ ":" +:+ t)
                              | None => None
                              end) props)
            +:+ "}")
  end.

(** A JavaScript number holds every integer up to [2 ^ 53] in magnitude
    exactly and prints it digit by digit; beyond that it rounds, and it
    prints the shortest digits that read back as the same number, in
    exponent form from [1e21] on.  [to_String] and [JSON_stringify] above
    print [Num n] digit by digit, which is what JavaScript does for the
    values that are [exact]. *)
Definition safe_integer (n : Z) : bool := (Z.abs n <=? 2 ^ 53)%Z.

Fixpoint exact (v : value) : bool :=
  match v with
  | Num n => safe_integer n
  | Arr items => forallb exact items
  | Obj props => forallb (fun p => exact (snd p)) props
  | Undefined | Null | Bool _ | Str _ => true
  end.

(** [Array.prototype.join]: an [undefined] element contributes nothing. *)
Definition join (sep : string) (parts : list (option string)) : string :=
  String.concat sep (map (default "") parts).

End JS.

(** ** Console capture

    The same expression renders the arguments of a console call in the
    three overrides installed by [wrapCode] and in [captureLog] of
    [SimpleSandbox]:
    [args.map(arg => typeof arg === 'object' ? JSON.stringify(arg) : String(arg)).join(' ')]. *)

Definition render_arg (arg : JS.value) : option string :=
  if decide (JS.typeof arg = JS.TObject)
  then JS.JSON_stringify arg
  else Some (JS.to_String arg).

Definition render_args (args : list JS.value) : string :=
  JS.join " " (map render_arg args).

(** ** What is thrown *)

(** An [Error] object as far as the engine reads it: [stack] is declared
    optional, and an [undefined] stack concatenates as the text
    [undefined].  Any object with a string under [message] is read in the
    same way.  An object that carries something else than a string under
    [message] is left out, and with it the result that [execute] would
    build from it, whose [error] would be no string either. *)
Record js_error := Err { message : string; stack : option string }.

Inductive nullish := Is_null | Is_undefined.

Definition nullish_text (n : nullish) : string :=
  match n with
  | Is_null => "null"
  | Is_undefined => "undefined"
  end.

(** JavaScript throws any value, and a promise rejects with any value.
    The engine reads [message] and [stack] of what it catches: [null] and
    [undefined] have no properties at all, and [Primitive v] is a value
    on which both read as [undefined]: a boolean, a number, a string, or
    an object that carries neither. *)
Inductive thrown :=
| ErrorObject (e : js_error)
| Nullish (n : nullish)
| Primitive (v : JS.value).

Coercion ErrorObject : js_error >-> thrown.

(** [new Error(msg)] made by the engine itself; nothing reads its stack. *)
Definition new_Error (msg : string) : js_error :=
  {| message := msg; stack := None |}.

(** The [TypeError] of a property read on [null] or [undefined], in the
    words of V8. *)
Definition cannot_read (what name : string) : js_error :=
  new_Error ("Cannot read properties of " +:+ what +:+ " (reading '"
             +:+ name +:+ "')").

(** An expression either has a value or throws. *)
Inductive attempt (A : Type) :=
| Done (a : A)
| Failed (x : thrown).

Arguments Done {A} a.
Arguments Failed {A} x.

(** [error.message]; [None] is [undefined]. *)
Definition read_message (error : thrown) : attempt (option string) :=
  match error with
  | ErrorObject e => Done (Some (message e))
  | Nullish n => Failed (cannot_read (nullish_text n) "message")
  | Primitive _ => Done None
  end.

(** [error.message + '\n' + error.stack] for an [Error] object. *)
Definition describe_error (e : js_error) : string :=
  message e +:+ JS.newline +:+ default "undefined" (stack e).

(** [error.message + '\n' + error.stack], as both tiers write it. *)
Definition describe (error : thrown) : attempt string :=
  match error with
  | ErrorObject e => Done (describe_error e)
  | Nullish n => Failed (cannot_read (nullish_text n) "message")
  | Primitive _ => Done ("undefined" +:+ JS.newline +:+ "undefined")
  end.

(** ** The message channel of a unit *)

(** An object handed to [parentPort.postMessage], as far as [execute]
    reads it.  [msg_success] is the truth value of its [success]; a field
    that is missing or holds [undefined] is [None], and so is a [logs] or a
    [memoryUsed] that is falsy, which [execute] replaces.  The other
    fields hold what the [ExecutionResult] interface declares for them. *)
Record worker_message := Message {
  msg_success : bool;
  msg_output : option JS.value;
  msg_logs : option (list string);
  msg_error : option string;
  msg_memoryUsed : option Z
}.

(** What arrives with a ['message'] event: [postMessage] also takes [null]
    and [undefined], which have no fields to read; a boolean, a number or
    a string reads like an object without any of the fields. *)
Inductive posted :=
| Blank (n : nullish)
| Report (fields : worker_message).

(** What a unit lets the host see of itself: a message on its port, an
    exception that nothing caught, the end of its thread. *)
Inductive emission :=
| Sends (m : posted)
| Crashes (x : thrown)
| Leaves (code : Z).

(** ** Code fragments *)

Inductive channel := Log | Error | Warn.

Record console_call := Call { chan : channel; args : list JS.value }.

(** One step of a fragment, as far as the engine can tell.
    - [Say c]: a call of [console.log], [console.error] or [console.warn]
      that runs the function installed for it by the tier, with the
      built-in functions that this one calls as the platform provides
      them.
    - [Post m]: [parentPort.postMessage(m)] done by the fragment itself,
      for a message that gets to the host; the port of the generated
      program is in the scope of the fragment.
    - [Edit change]: a statement that changes the array of captured lines
      behind the back of the console ([logs.pop()], [logs.length = 0],
      [logs.push('x')], ...), given by what it does to the content.
    - [Writes path content], [Removes path]: a file operation that the
      unit has completed. *)
Inductive step :=
| Say (c : console_call)
| Post (m : posted)
| Edit (change : list string -> list string)
| Writes (path content : string)
| Removes (path : string).

(** Where a declaration of the fragment is visible: [let], [const] and
    [class] at its top level bind in the block of the [try] around it,
    [var] binds in the whole function around that block. *)
Inductive scoping := Block | Function.

(** How the body of a fragment ends.
    - [Completes]: control falls off the end of the fragment.
    - [Throws x]: the fragment throws [x], synchronously or from an awaited
      promise, so that the [try] around it sees it.
    - [Returns v]: a [return] statement at the top level of the fragment
      hands [v] back and leaves the function around the fragment at once;
      in the worker nothing is reported and, with nothing left to do, the
      thread exits with status 0.
    - [Hangs]: the fragment does not come to an end and its thread stays
      alive: it loops for ever, or it waits with something still pending.
    - [Stalls]: the fragment waits for a promise that never settles and
      nothing else is pending; the function around it stays suspended
      and, with nothing left to do, the thread exits with status 0.
    - [Exits code]: the fragment calls [process.exit(code)].
    - [Uncaught x]: [x] escapes from a callback that the fragment
      scheduled, outside the [try], before the fragment has come to
      another end. *)
Inductive ending :=
| Completes
| Throws (x : thrown)
| Returns (v : JS.value)
| Hangs
| Stalls
| Exits (code : Z)
| Uncaught (x : thrown).

(** A fragment: its text, and what this text does in one run.
    - [steps]: what it does, in order, up to its ending.
    - [own_logs]: a declaration of the name [logs] at the top level of the
      fragment, with the place where it binds and with what the name
      holds when the generated program reads it for its report ([None]
      for [undefined]).  The generated program declares [logs] outside its
      [try] block and reads it inside, after the fragment, so a
      declaration of the fragment hides the array of captured lines from
      the report.
    - [takes_over]: [None] for a fragment that leaves the rest of the
      generated program as it found it: the names [parentPort], [process]
      and [memoryBefore] that are read after the fragment, the platform
      functions that these lines call, the handlers of the process.  A
      fragment that does not has the unit in its hands, and the field
      tells what the host then sees of the unit.
    - [ends]: how it ends.
    The steps [Post] and [Edit] and the fields [own_logs] and [takes_over]
    concern the generated program of the worker tier; in [SimpleSandbox]
    the fragment is the body of a function of its own, where none of these
    names exists, so that a run there has none of them. *)
Record fragment := Fragment {
  source : string;
  steps : list step;
  own_logs : option (scoping * option (list string));
  takes_over : option (list emission);
  ends : ending
}.

(** The console calls of a fragment, in order. *)
Definition calls (f : fragment) : list console_call :=
  omap (fun s => match s with Say c => Some c | _ => None end) (steps f).

(** The messages it posts itself, in order. *)
Definition posts (f : fragment) : list posted :=
  omap (fun s => match s with Post m => Some m | _ => None end) (steps f).

Definition is_post (s : step) : bool :=
  match s with Post _ => true | _ => false end.

Definition is_edit (s : step) : bool :=
  match s with Edit _ => true | _ => false end.

Definition is_file_step (s : step) : bool :=
  match s with Writes _ _ | Removes _ => true | _ => false end.

(** ** Promises *)

(** The state of a promise: not settled yet, fulfilled with a value, or
    rejected with whatever was thrown. *)
Inductive settlement (A : Type) :=
| Pending
| Fulfilled (a : A)
| Rejected (x : thrown).

Arguments Pending {A}.
Arguments Fulfilled {A} a.
Arguments Rejected {A} x.

Definition is_settled {A} (p : settlement A) : bool :=
  match p with Pending => false | _ => true end.

(** ** The interfaces of the module *)

Record Stats := { duration : Z; memoryUsed : Z }.

(** An optional field that the object literal leaves out, or that holds
    [undefined], is [None]. *)
Record ExecutionResult := {
  success : bool;
  output : option JS.value;
  logs : list string;
  error : option string;
  stats : Stats
}.

(** A property of an options object: the object has none of that name, or
    it has one that holds [undefined], or one that holds a value. *)
Inductive property (A : Type) :=
| Missing
| Void
| Holds (a : A).

Arguments Missing {A}.
Arguments Void {A}.
Arguments Holds {A} a.

Record ExecutionOptions := Options {
  timeout : property Z;
  maxMemory : property Z;
  allowedPaths : property (list string)
}.

Definition no_options : ExecutionOptions :=
  {| timeout := Missing; maxMemory := Missing; allowedPaths := Missing |}.

(** One property of [{ ...a, ...b }]: spreading copies every own property
    of [b] over that of [a], also one that holds [undefined]. *)
Definition spread_property {A} (a b : property A) : property A :=
  match b with
  | Missing => a
  | Void | Holds _ => b
  end.

Definition spread (a b : ExecutionOptions) : ExecutionOptions :=
  {| timeout := spread_property (timeout a) (timeout b);
     maxMemory := spread_property (maxMemory a) (maxMemory b);
     allowedPaths := spread_property (allowedPaths a) (allowedPaths b) |}.

(** Truthiness of a number that may be missing. *)
Definition truthy (t : property Z) : bool :=
  match t with
  | Holds n => negb (n =? 0)%Z
  | Missing | Void => false
  end.

(** A number inside a template literal. *)
Definition show_number (t : property Z) : string :=
  match t with
  | Holds n => pretty n
  | Missing | Void => "undefined"
  end.

(** ** The platform around one call *)

(** Which side of the deadline race reaches the host first. *)
Inductive race := UnitFirst | DeadlineFirst.

(** Everything one call of [execute] gets from outside the engine. *)
Record world := World {
  tmp_dir : string;                 (* os.tmpdir() *)
  random_hex : string;              (* randomBytes(8).toString('hex') *)
  clock_start : Z;                  (* first Date.now() *)
  clock_end : Z;                    (* second Date.now() *)
  heap_delta : Z;                   (* memoryAfter - memoryBefore *)
  stage_failure : option js_error;  (* writeFile rejects *)
  spawn_failure : option js_error;  (* new Worker throws *)
  unlink_failure : option js_error; (* unlink rejects *)
  winner : race
}.

(** ** Asynchronous steps over the host's disk

    The disk maps a path to the text of the file stored there.  A step
    either fulfils, rejects, or never settles; whatever it did to the disk
    stays done. *)

Abbreviation disk := (gmap string string).

Definition async (A : Type) : Type := disk -> settlement A * disk.

Definition ret {A} (a : A) : async A := fun d => (Fulfilled a, d).

(** [throw x]. *)
Definition throw {A} (x : thrown) : async A := fun d => (Rejected x, d).

(** An expression evaluated on the way. *)
Definition eval {A} (t : attempt A) : async A :=
  match t with
  | Done a => ret a
  | Failed x => throw x
  end.

(** [await m], then go on with [k]. *)
Definition bind {A B} (m : async A) (k : A -> async B) : async B :=
  fun d =>
    match m d with
    | (Fulfilled a, d') => k a d'
    | (Rejected x, d') => (Rejected x, d')
    | (Pending, d') => (Pending, d')
    end.

(** [try { m } catch (error) { h error }]. *)
Definition try_catch {A} (m : async A) (h : thrown -> async A) : async A :=
  fun d =>
    match m d with
    | (Rejected x, d') => h x d'
    | r => r
    end.

(** [m.catch(() => {})]. *)
Definition ignore_errors (m : async unit) : async unit :=
  try_catch m (fun _ => ret tt).

(** Awaiting a promise that something else settles. *)
Definition await {A} (p : settlement A) : async A := fun d => (p, d).

Declare Scope async_scope.
Delimit Scope async_scope with async.
Notation "x <- m ;; k" := (bind m (fun x => k))
  (at level 100, m at next level, right associativity) : async_scope.
Notation "m ;; k" := (bind m (fun _ => k))
  (at level 100, right associativity) : async_scope.

(** [fs/promises.writeFile]. *)
Definition writeFile (w : world) (path content : string) : async unit :=
  fun d =>
    match stage_failure w with
    | Some e => (Rejected e, d)
    | None => (Fulfilled tt, <[path := content]> d)
    end.

(** [fs/promises.unlink]. *)
Definition unlink (w : world) (path : string) : async unit :=
  fun d =>
    match unlink_failure w with
    | Some e => (Rejected e, d)
    | None =>
        match d !! path with
        | Some _ => (Fulfilled tt, delete path d)
        | None =>
            (Rejected (new_Error ("ENOENT: no such file or directory, unlink '"
                                  +:+ path +:+ "'")), d)
        end
    end.

(** [path.join(dir, name)] for a directory without a trailing separator. *)
Definition join_path (dir name : string) : string := dir +:+ "/" +:+ name.

(** * CodeExecutor: the worker tier *)

Module CodeExecutor.

Definition defaultOptions : ExecutionOptions :=
  {| timeout := Holds 30000;
     maxMemory := Holds (512 * 1024 * 1024);
     allowedPaths := Holds ["./servers"; "./skills"; "./cache"] |}.

(** ** [wrapCode]: the generated program *)

Definition wrapCode_head : string :=
"import { parentPort } from 'worker_threads';

// Capture console output
const logs = [];
const originalLog = console.log;
const originalError = console.error;
const originalWarn = console.warn;

console.log = (...args) => {
  const message = args.map(arg =>
    typeof arg === 'object' ? JSON.stringify(arg) : String(arg)
  ).join(' ');
  logs.push(message);
  originalLog(...args);
};

console.error = (...args) => {
  const message = args.map(arg =>
    typeof arg === 'object' ? JSON.stringify(arg) : String(arg)
  ).join(' ');
  logs.push('ERROR: ' + message);
  originalError(...args);
};

console.warn = (...args) => {
  const message = args.map(arg =>
    typeof arg === 'object' ? JSON.stringify(arg) : String(arg)
  ).join(' ');
  logs.push('WARN: ' + message);
  originalWarn(...args);
};

// Track memory usage
const memoryBefore = process.memoryUsage().heapUsed;

// Execute user code
(async () => {
  try {
    // User code starts here
    ".

Definition wrapCode_tail : string :=
"

    // User code ends here

    const memoryAfter = process.memoryUsage().heapUsed;

    // Send success result back to parent
    parentPort?.postMessage({
      success: true,
      output: null, // Output should be logged by user code
      logs,
      memoryUsed: memoryAfter - memoryBefore
    });

  } catch (error) {
    // Send error result back to parent
    parentPort?.postMessage({
      success: false,
      error: error.message + '\n' + error.stack,
      logs
    });
  }
})();".

(** The template literal of [wrapCode] after [.trim()]: the text starts and
    ends with characters of the template that are not white space, so the
    user's code sits between two constant pieces. *)
Definition wrapCode (code : string) : string :=
  wrapCode_head +:+ code +:+ wrapCode_tail.


(** ** What the generated program does when it runs *)

(** The three console overrides of the generated program, acting on its
    [logs] array.  Each of them also hands its arguments to the console
    method it replaces; that output goes to the operator and plays no
    part here. *)
Definition console_override (buffer : list string) (c : console_call)
  : list string :=
  let message := render_args (args c) in
  match chan c with
  | Log => buffer ++ [message]
  | Error => buffer ++ ["ERROR: " +:+ message]
  | Warn => buffer ++ ["WARN: " +:+ message]
  end.

(** One step of the fragment, seen from the array that the generated
    program declares as [logs]. *)
Definition run_step (buffer : list string) (s : step) : list string :=
  match s with
  | Say c => console_override buffer c
  | Edit change => change buffer
  | Post _ | Writes _ _ | Removes _ => buffer
  end.

(** The [logs] array of the generated program once the fragment has taken
    all its steps. *)
Definition captured (f : fragment) : list string :=
  fold_left run_step (steps f) [].

(** What the name [logs] holds where the success report is put together:
    inside the [try] block, behind the fragment, where a declaration of
    the fragment of either kind is the nearest one.  [None] is
    [undefined]. *)
Definition logs_in_try (f : fragment) : option (list string) :=
  match own_logs f with
  | Some (_, own) => own
  | None => Some (captured f)
  end.

(** What it holds where the failure report is put together: inside the
    [catch] block, which a [let] or a [const] of the fragment does not
    reach and a [var] does. *)
Definition logs_in_catch (f : fragment) : option (list string) :=
  match own_logs f with
  | Some (Function, own) => own
  | Some (Block, _) | None => Some (captured f)
  end.

(** The report of the generated program, when it sends one. [heap] is
    [memoryAfter - memoryBefore].  The [catch] block reads [message] and
    [stack] of what it caught before it posts anything. *)
Definition report (heap : Z) (f : fragment) : option worker_message :=
  match ends f with
  | Completes =>
      Some {| msg_success := true; msg_output := Some JS.Null;
              msg_logs := logs_in_try f; msg_error := None;
              msg_memoryUsed := Some heap |}
  | Throws x =>
      match describe x with
      | Done text =>
          Some {| msg_success := false; msg_output := None;
                  msg_logs := logs_in_catch f;
                  msg_error := Some text;
                  msg_memoryUsed := None |}
      | Failed _ => None
      end
  | Returns _ | Hangs | Stalls | Exits _ | Uncaught _ => None
  end.

(** What the unit lets the host see once the fragment has ended, when the
    generated program is as [wrapCode] wrote it.  An exit that follows a
    report carries status 1, since the ['message'] handler has called
    [terminate()] by then.  When the [catch] block itself throws, the
    promise of the function around it is rejected with nothing to handle
    it, which the platform treats like an uncaught exception. *)
Definition closing (w : world) (f : fragment) : list emission :=
  match report (heap_delta w) f with
  | Some m => [Sends (Report m); Leaves 1]
  | None =>
      match ends f with
      | Throws x =>
          match describe x with
          | Failed e => [Crashes e; Leaves 1]
          | Done _ => []
          end
      | Returns _ | Stalls => [Leaves 0]
      | Exits code => [Leaves code]
      | Uncaught x => [Crashes x; Leaves 1]
      | Completes | Hangs => []
      end
  end.

(** Everything the unit lets the host see: the messages that the fragment
    posts itself come before anything the generated program sends. *)
Definition emissions (w : world) (f : fragment) : list emission :=
  match takes_over f with
  | Some seen => seen
  | None => (map Sends (posts f) ++ closing w f)%list
  end.

(** ** [executeInWorker] *)

(** What the host's event loop hands to the callbacks registered by
    [executeInWorker]. *)
Inductive event :=
| EvMessage (m : posted)
| EvError (x : thrown)
| EvExit (code : Z)
| EvTimer.

(** The promise under construction, the worker thread and the timer.
    [running] is the state of the thread itself; [timer] tells whether the
    callback given to [setTimeout] is still scheduled. *)
Record launch := Launch {
  promise : settlement posted;
  running : bool;
  timer : bool
}.

(** [resolve] and [reject] settle a promise once; later calls do nothing. *)
Definition resolve (m : posted) (s : launch) : launch :=
  match promise s with
  | Pending =>
      {| promise := Fulfilled m; running := running s; timer := timer s |}
  | _ => s
  end.

Definition reject (x : thrown) (s : launch) : launch :=
  match promise s with
  | Pending =>
      {| promise := Rejected x; running := running s; timer := timer s |}
  | _ => s
  end.

Definition clearTimeout (s : launch) : launch :=
  {| promise := promise s; running := running s; timer := false |}.

(** [worker.terminate()]. *)
Definition terminate (s : launch) : launch :=
  {| promise := promise s; running := false; timer := timer s |}.

(** A timer whose callback is running is no longer scheduled. *)
Definition timer_fired (s : launch) : launch :=
  {| promise := promise s; running := running s; timer := false |}.

(** The thread is gone by the time the platform emits ['error'] (it tears
    the thread down after an uncaught exception) or ['exit']. *)
Definition thread_stopped (s : launch) : launch :=
  {| promise := promise s; running := false; timer := timer s |}.

Definition timeout_error (options : ExecutionOptions) : js_error :=
  new_Error ("Execution timeout after " +:+ show_number (timeout options)
             +:+ "ms").

Definition exit_error (code : Z) : js_error :=
  new_Error ("Worker stopped with exit code " +:+ pretty code).

(** The callback given to [setTimeout]. *)
Definition on_timer (options : ExecutionOptions) (s : launch) : launch :=
  reject (timeout_error options) (terminate s).

(** [worker.on('message', ...)]. *)
Definition on_message (m : posted) (s : launch) : launch :=
  resolve m (terminate (clearTimeout s)).

(** [worker.on('error', ...)]. *)
Definition on_error (x : thrown) (s : launch) : launch :=
  reject x (clearTimeout s).

(** [worker.on('exit', ...)]. *)
Definition on_exit (code : Z) (s : launch) : launch :=
  let s := clearTimeout s in
  if decide (code <> 0) then reject (exit_error code) s else s.

(** One turn of the event loop.  A timer that was never set, was cleared
    or has fired does not run its callback. *)
Definition dispatch (options : ExecutionOptions) (s : launch) (ev : event)
  : launch :=
  match ev with
  | EvTimer =>
      if timer s then on_timer options (timer_fired s) else s
  | EvMessage m => on_message m s
  | EvError x => on_error x (thread_stopped s)
  | EvExit code => on_exit code (thread_stopped s)
  end.

Definition run_events (options : ExecutionOptions) (evs : list event)
  (s : launch) : launch :=
  fold_left (dispatch options) evs s.

(** The executor function of the promise, up to the point where the
    handlers are registered: the thread is started and the timer is set
    when [options.timeout] is truthy. *)
Definition launched (options : ExecutionOptions) : launch :=
  {| promise := Pending; running := true;
     timer := truthy (timeout options) |}.

(** The event that the host gets for what the unit lets it see. *)
Definition host_event (e : emission) : event :=
  match e with
  | Sends m => EvMessage m
  | Crashes x => EvError x
  | Leaves code => EvExit code
  end.

(** The events a unit gives rise to when the deadline does not
    interfere. *)
Definition unit_events (w : world) (f : fragment) : list event :=
  map host_event (emissions w f).

(** The order in which the host sees things.  There is a timer only when
    [options.timeout] is truthy, and only then can the deadline win; a unit
    that the timer callback terminates exits with status 1 and reports
    nothing.  Otherwise the unit's events come first, and the timer, if
    there is one, is due after them. *)
Definition delivered (w : world) (options : ExecutionOptions) (f : fragment)
  : list event :=
  if truthy (timeout options) then
    match winner w with
    | DeadlineFirst => [EvTimer; EvExit 1]
    | UnitFirst => unit_events w f ++ [EvTimer]
    end
  else unit_events w f.

(** [executeInWorker(scriptPath, options, logs)] for a script that holds
    the wrapped fragment [f].  Neither [scriptPath] nor [logs] is used
    once the thread is started: no handler touches [logs]. *)
Definition executeInWorker (w : world) (f : fragment)
  (scriptPath : string) (options : ExecutionOptions) (logs : list string)
  : launch :=
  match spawn_failure w with
  | Some e => {| promise := Rejected e; running := false; timer := false |}
  | None => run_events options (delivered w options f) (launched options)
  end.

(** ** [execute] *)

Definition tempFile (w : world) : string :=
  join_path (tmp_dir w) ("pendo-exec-" +:+ random_hex w +:+ ".mjs").

(** One step of the fragment, seen from the disk. *)
Definition file_step (d : disk) (s : step) : disk :=
  match s with
  | Writes path content => <[path := content]> d
  | Removes path => delete path d
  | Say _ | Post _ | Edit _ => d
  end.

(** While the host waits for the launch to settle, the unit, once its
    thread has started, does to the files what the fragment tells it to:
    [new Worker(scriptPath)] is given no restriction, and nothing reads
    [options.allowedPaths]. *)
Definition worker_runs (w : world) (f : fragment) : async unit :=
  fun d =>
    (Fulfilled tt,
     match spawn_failure w with
     | Some _ => d
     | None => fold_left file_step (steps f) d
     end).

(** The fields of [result], read for the first time by [result.success]. *)
Definition fields_of (result : posted) : attempt worker_message :=
  match result with
  | Report fields => Done fields
  | Blank n => Failed (cannot_read (nullish_text n) "success")
  end.

Definition execute (w : world) (f : fragment) (options : ExecutionOptions)
  : async ExecutionResult :=
  let opts := spread defaultOptions options in
  let logs : list string := [] in
  let startTime := clock_start w in
  try_catch
    (let wrappedCode := wrapCode (source f) in
     let tempFile := tempFile w in
     (writeFile w tempFile wrappedCode ;;
      worker_runs w f ;;
      result <- await (promise (executeInWorker w f tempFile opts logs)) ;;
      ignore_errors (unlink w tempFile) ;;
      let duration := clock_end w - startTime in
      result <- eval (fields_of result) ;;
      if msg_success result then
        ret {| success := true;
               output := msg_output result;
               logs := default logs (msg_logs result);
               error := None;
               stats := {| duration := duration;
                           memoryUsed := default 0 (msg_memoryUsed result) |}
            |}
      else
        ret {| success := false;
               output := None;
               error := msg_error result;
               logs := default logs (msg_logs result);
               stats := {| duration := duration;
                           memoryUsed := default 0 (msg_memoryUsed result) |}
            |})%async)
    (fun error =>
       (text <- eval (read_message error) ;;
        ret {| success := false;
               output := None;
               error := text;
               logs := logs;
               stats := {| duration := clock_end w - startTime;
                           memoryUsed := 0 |} |})%async).

End CodeExecutor.

(** * SimpleSandbox: the in-process tier *)

Module SimpleSandbox.

(** [captureLog], bound to [log], [error] and [warn] alike. *)
Definition captureLog (buffer : list string) (c : console_call)
  : list string :=
  buffer ++ [render_args (args c)].

(** The [logs] array of [execute] once the fragment has made its console
    calls; the array is local to [execute] and the fragment, a function
    built from its text alone, has no name for it. *)
Definition captured (f : fragment) : list string :=
  fold_left captureLog (calls f) [].

(** [execute(code)].  The fragment runs inside the host: a fragment that
    never gives control back, that ends the process or whose callback
    throws outside the awaited function leaves the caller without an
    answer.  The [catch] block reads [message] and [stack] of what it
    caught, and what it throws itself goes to the caller. *)
Definition execute (w : world) (f : fragment) : settlement ExecutionResult :=
  let logs := captured f in
  let startTime := clock_start w in
  match ends f with
  | Completes | Returns _ =>
      Fulfilled {| success := true;
                   output := None;
                   logs := logs;
                   error := None;
                   stats := {| duration := clock_end w - startTime;
                               memoryUsed := 0 |} |}
  | Throws x =>
      match describe x with
      | Done text =>
          Fulfilled {| success := false;
                       output := None;
                       error := Some text;
                       logs := logs;
                       stats := {| duration := clock_end w - startTime;
                                   memoryUsed := 0 |} |}
      | Failed e => Rejected e
      end
  | Hangs | Stalls | Exits _ | Uncaught _ => Pending
  end.

End SimpleSandbox.

(** * Vocabulary of the specification *)

(** The textual rendering of one logged value, in the words of the
    specification: an object (which for [typeof] includes arrays and
    [null]) is rendered as its JSON serialization, any other value through
    string conversion. *)
Definition textual_rendering (v : JS.value) : string :=
  match v with
  | JS.Null | JS.Arr _ | JS.Obj _ => default "" (JS.JSON_stringify v)
  | JS.Undefined | JS.Bool _ | JS.Num _ | JS.Str _ => JS.to_String v
  end.

(** Several arguments of one call are joined by a space. *)
Definition rendered_line (values : list JS.value) : string :=
  String.concat " " (map textual_rendering values).

(** What the worker tier puts in front of a line, by channel. *)
Definition channel_prefix (c : channel) : string :=
  match c with
  | Log => ""
  | Error => "ERROR: "
  | Warn => "WARN: "
  end.

(** [needle] occurs somewhere inside [hay]. *)
Definition contains (needle hay : string) : Prop :=
  exists before after, hay = before +:+ needle +:+ after.

(** The fragment leaves the message channel of the unit to the generated
    program: it posts nothing itself and has not taken the unit over. *)
Definition leaves_channel (f : fragment) : bool :=
  match takes_over f with
  | None => forallb (fun s => negb (is_post s)) (steps f)
  | Some _ => false
  end.

(** The fragment leaves the captured lines to the console: it declares no
    [logs] of its own and does not change the array itself. *)
Definition leaves_logs (f : fragment) : bool :=
  match own_logs f with
  | None => forallb (fun s => negb (is_edit s)) (steps f)
  | Some _ => false
  end.


(** The answer of a call: how its promise settles, and the disk it leaves. *)
Definition answer {A} (call : async A) (d : disk) : settlement A := (call d).1.
Definition disk_after {A} (call : async A) (d : disk) : disk := (call d).2.

(** The result that the [catch] clause of [CodeExecutor.execute] builds
    around what it read as [error.message]. *)
Definition caught (w : world) (text : option string) : ExecutionResult :=
  {| success := false;
     output := None;
     logs := [];
     error := text;
     stats := {| duration := clock_end w - clock_start w; memoryUsed := 0 |}
  |}.

Definition failure (w : world) (msg : string) : ExecutionResult :=
  caught w (Some msg).

(** The result that [CodeExecutor.execute] builds from the fields of the
    message that settled the launch. *)
Definition relayed (w : world) (m : worker_message) : ExecutionResult :=
  {| success := msg_success m;
     output := if msg_success m then msg_output m else None;
     logs := default [] (msg_logs m);
     error := if msg_success m then None else msg_error m;
     stats := {| duration := clock_end w - clock_start w;
                 memoryUsed := default 0 (msg_memoryUsed m) |} |}.

(** A launch is tidy when a settled promise never sits next to a thread
    that is still running or to a timer that is still scheduled. *)
Definition tidy (s : CodeExecutor.launch) : Prop :=
  is_settled (CodeExecutor.promise s) = true ->
  CodeExecutor.running s = false /\ CodeExecutor.timer s = false.

(** The last file operation of a list of steps on [path], if there is
    one: [Some None] for a removal. *)
Definition last_touch (path : string) (l : list step)
  : option (option string) :=
  fold_left (fun acc s =>
               match s with
               | Writes p content =>
                   if decide (p = path) then Some (Some content) else acc
               | Removes p => if decide (p = path) then Some None else acc
               | Say _ | Post _ | Edit _ => acc
               end) l None.

(** ** Sample calls *)

Definition calm : world :=
  {| tmp_dir := "/tmp"; random_hex := "00112233aabbccdd";
     clock_start := 1000; clock_end := 1042; heap_delta := 2048;
     stage_failure := None; spawn_failure := None; unlink_failure := None;
     winner := UnitFirst |}.

Definition late : world :=
  {| tmp_dir := "/tmp"; random_hex := "00112233aabbccdd";
     clock_start := 1000; clock_end := 1201; heap_delta := 0;
     stage_failure := None; spawn_failure := None; unlink_failure := None;
     winner := DeadlineFirst |}.

Definition within (ms : Z) : ExecutionOptions :=
  {| timeout := Holds ms; maxMemory := Missing; allowedPaths := Missing |}.

Definition log_A_B : fragment :=
  {| source := "console.log('A'); console.log('B');";
     steps := [Say (Call Log [JS.Str "A"]); Say (Call Log [JS.Str "B"])];
     own_logs := None; takes_over := None;
     ends := Completes |}.

Definition throw_boom : fragment :=
  {| source := "throw new Error('boom')";
     steps := [];
     own_logs := None; takes_over := None;
     ends := Throws {| message := "boom";
                       stack := Some "Error: boom
    at file:///tmp/pendo-exec-00112233aabbccdd.mjs:41:11" |} |}.

Definition log_then_spin : fragment :=
  {| source := "console.log('A'); while(true){}";
     steps := [Say (Call Log [JS.Str "A"])];
     own_logs := None; takes_over := None;
     ends := Hangs |}.



Definition late_blank_throw : fragment :=
  {| source := "setTimeout(() => { throw new Error(); }, 0); await new Promise(r => setTimeout(r, 50));";
     steps := [];
     own_logs := None; takes_over := None;
     ends := Uncaught {| message := ""; stack := Some "Error
    at Timeout._onTimeout (file:///tmp/pendo-exec-00112233aabbccdd.mjs:41:32)" |} |}.



Definition late_plain_throw : fragment :=
  {| source := "setTimeout(() => { throw 'plain'; }, 0); await new Promise(r => setTimeout(r, 50));";
     steps := [];
     own_logs := None; takes_over := None;
     ends := Uncaught (Primitive (JS.Str "plain")) |}.





Definition log_then_return : fragment :=
  {| source := "console.log('A'); return 5;";
     steps := [Say (Call Log [JS.Str "A"])];
     own_logs := None; takes_over := None;
     ends := Returns (JS.Num 5) |}.

(** A fragment that speaks for the unit before it throws. *)
Definition post_then_throw : fragment :=
  {| source := "parentPort.postMessage({ success: false }); throw new Error('boom');";
     steps := [Post (Report (Message false None None None None))];
     own_logs := None; takes_over := None;
     ends := Throws {| message := "boom";
                       stack := Some "Error: boom
    at file:///tmp/pendo-exec-00112233aabbccdd.mjs:41:50" |} |}.

Definition post_an_output : fragment :=
  {| source := "parentPort.postMessage({ success: true, output: 42, logs: [] });";
     steps := [Post (Report (Message true (Some (JS.Num 42)) (Some [])
                               None None))];
     own_logs := None; takes_over := None;
     ends := Completes |}.

Definition warn_then_throw : fragment :=
  {| source := "console.warn('careful'); throw new Error('boom')";
     steps := [Say (Call Warn [JS.Str "careful"])];
     own_logs := None; takes_over := None;
     ends := Throws (Err "boom" None) |}.

Definition throw_plain : fragment :=
  {| source := "throw 'plain';";
     steps := [];
     own_logs := None; takes_over := None;
     ends := Throws (Primitive (JS.Str "plain")) |}.


Definition stalled : fragment :=
  {| source := "await new Promise(() => {});";
     steps := [];
     own_logs := None; takes_over := None;
     ends := Stalls |}.

Definition write_outside : fragment :=
  {| source := "const fs = await import('fs'); fs.writeFileSync('/etc/motd', 'hello');";
     steps := [Writes "/etc/motd" "hello"];
     own_logs := None; takes_over := None;
     ends := Completes |}.

(** * The protocol server: [handleExecuteCode]

    The handler behind the [execute_pendo_code] tool, the one caller of
    [CodeExecutor.execute]. *)

Module PendoCodeExecutionServer.

(** [JSON.stringify(v, null, gap)] for a gap that is not empty: [indent] is
    the indentation reached so far. *)
Fixpoint JSON_stringify_indented (gap indent : string) (v : JS.value)
  : option string :=
  match v with
  | JS.Undefined => None
  | JS.Null => Some "null"
  | JS.Bool b => Some (JS.of_bool b)
  | JS.Num n => Some (pretty n)
  | JS.Str s => Some (JS.json_quote s)
  | JS.Arr items =>
      let inner := indent +:+ gap in
      match items with
      | [] => Some "[]"
      | _ =>
          Some ("[" +:+ JS.newline +:+ inner +:+
                String.concat ("," +:+ JS.newline +:+ inner)
                  (map (fun x => default "null"
                                   (JSON_stringify_indented gap inner x))
                       items)
                +:+ JS.newline +:+ indent +:+ "]")
      end
  | JS.Obj props =>
      let inner := indent +:+ gap in
      match omap (fun p =>
                    match JSON_stringify_indented gap inner (snd p) with
                    | Some t => Some (JS.json_quote (fst p) +:+ ": " +:+ t)
                    | None => None
                    end) props with
      | [] => Some "{}"
      | partial =>
          Some ("{" +:+ JS.newline +:+ inner +:+
                String.concat ("," +:+ JS.newline +:+ inner) partial
                +:+ JS.newline +:+ indent +:+ "}")
      end
  end.

(** [JSON.stringify(v, null, 2)]. *)
Definition JSON_stringify_2 (v : JS.value) : string :=
  default "undefined" (JSON_stringify_indented "  " "" v).

(** The arguments of a tool call, as far as the handler reads them.  The
    code arrives as text; here it carries what that text does, as
    everywhere else.  [None] is a property that is missing or falsy. *)
Record tool_args := Args {
  args_code : option fragment;
  args_timeout : option Z
}.

(** The response: one text item, and the [isError] flag ([false] when the
    object literal leaves it out). *)
Record tool_response := Response {
  text : string;
  isError : bool
}.

(** [timeout || 30000]. *)
Definition timeout_or_default (t : option Z) : Z :=
  match t with
  | Some n => if (n =? 0)%Z then 30000 else n
  | None => 30000
  end.

(** [{ timeout: timeout || 30000 }]. *)
Definition handler_options (call : tool_args) : ExecutionOptions :=
  {| timeout := Holds (timeout_or_default (args_timeout call));
     maxMemory := Missing;
     allowedPaths := Missing |}.

Definition stats_value (s : Stats) : JS.value :=
  JS.Obj [("duration", JS.Num (duration s));
          ("memoryUsed", JS.Num (memoryUsed s))].

Definition success_text (result : ExecutionResult) : string :=
  JSON_stringify_2
    (JS.Obj [("success", JS.Bool true);
             ("logs", JS.Arr (map JS.Str (logs result)));
             ("stats", stats_value (stats result))]).

Definition failure_text (result : ExecutionResult) : string :=
  "Execution failed:" +:+ JS.newline +:+
  default "undefined" (error result) +:+
  JS.newline +:+ JS.newline +:+ "Logs:" +:+ JS.newline +:+
  String.concat JS.newline (logs result) +:+
  JS.newline +:+ JS.newline +:+ "Stats:" +:+ JS.newline +:+
  JSON_stringify_2 (stats_value (stats result)).

Definition no_code : tool_response :=
  {| text := "Error: No code provided"; isError := true |}.

(** What [const { code, timeout } = args] throws when the request carries
    no arguments, in the words of V8. *)
Definition cannot_destructure : js_error :=
  new_Error
    "Cannot destructure property 'code' of 'args' as it is undefined.".

(** [handleExecuteCode(args)]: the request handler passes on
    [request.params.arguments], which a request may leave out. *)
Definition handleExecuteCode (w : world) (args : option tool_args)
  : async tool_response :=
  match args with
  | None => throw cannot_destructure
  | Some call =>
      match args_code call with
      | None => ret no_code
      | Some f =>
          if decide (source f = "") then ret no_code
          else
            (result <- CodeExecutor.execute w f (handler_options call) ;;
             if success result then
               ret {| text := success_text result; isError := false |}
             else
               ret {| text := failure_text result; isError := true |})%async
      end
  end.

End PendoCodeExecutionServer.

(** * RateLimiter: the sliding window *)

Module RateLimiter.

Record t := Make {
  requests : gmap string (list Z);
  limit : Z;
  window : Z
}.

(** [new RateLimiter(limit, windowMs)]. *)
Definition create (limit windowMs : Z) : t :=
  {| requests := ∅; limit := limit; window := windowMs |}.

(** [this.requests.get(key) || []]. *)
Definition timestamps_of (rl : t) (key : string) : list Z :=
  default [] (requests rl !! key).

(** [timestamps.filter((ts) => now - ts < this.window)]. *)
Definition validTimestamps (rl : t) (now : Z) (key : string) : list Z :=
  filter (fun ts => now - ts < window rl) (timestamps_of rl key).

(** [checkLimit(key)] at the instant [now]: the answer and the limiter
    afterwards. *)
Definition checkLimit (rl : t) (now : Z) (key : string) : bool * t :=
  let valid := validTimestamps rl now key in
  if decide (limit rl <= Z.of_nat (length valid)) then (false, rl)
  else (true,
        {| requests := <[key := (valid ++ [now])%list]> (requests rl);
           limit := limit rl;
           window := window rl |}).

Definition getRemaining (rl : t) (now : Z) (key : string) : Z :=
  Z.max 0 (limit rl - Z.of_nat (length (validTimestamps rl now key))).

(** [Math.min(...xs)] for a list that is not empty. *)
Definition minimum (x : Z) (xs : list Z) : Z := foldr Z.min x xs.

Definition getResetTime (rl : t) (now : Z) (key : string) : Z :=
  match validTimestamps rl now key with
  | [] => 0
  | ts :: rest =>
      let oldestTimestamp := minimum ts rest in
      let resetTime := oldestTimestamp + window rl in
      Z.max 0 (resetTime - now)
  end.

Definition clear (rl : t) (key : string) : t :=
  {| requests := delete key (requests rl);
     limit := limit rl;
     window := window rl |}.

Definition clearAll (rl : t) : t :=
  {| requests := ∅; limit := limit rl; window := window rl |}.

(** A run of calls to [checkLimit], each with its key and the reading of
    the clock at that call: the journal of the calls with their answers,
    and the limiter at the end. *)
Fixpoint serve (rl : t) (calls : list (string * Z))
  : list (string * Z * bool) * t :=
  match calls with
  | [] => ([], rl)
  | (key, now) :: rest =>
      let (answer, rl') := checkLimit rl now key in
      let (journal, rl'') := serve rl' rest in
      ((key, now, answer) :: journal, rl'')
  end.

(** The instants at which [key] was granted a request, oldest first. *)
Definition granted (journal : list (string * Z * bool)) (key : string)
  : list Z :=
  omap (fun entry =>
          match entry with
          | (k, now, answer) =>
              if answer && bool_decide (k = key) then Some now else None
          end) journal.

(** The clock never runs backwards from one call to the next. *)
Fixpoint clock_advances (last : Z) (calls : list (string * Z)) : Prop :=
  match calls with
  | [] => True
  | (_, now) :: rest => last <= now /\ clock_advances now rest
  end.

End RateLimiter.

(** * Skills: batches of activity queries *)

Module ParallelQueries.

(** [items.slice(from, to)]: a negative index counts from the end. *)
Definition slice {A} (items : list A) (from to : Z) : list A :=
  let len := Z.of_nat (length items) in
  let clamp (k : Z) := if (k <? 0)%Z then Z.max (len + k) 0 else Z.min k len in
  let a := clamp from in
  let b := clamp to in
  take (Z.to_nat (b - a)) (drop (Z.to_nat a) items).

(** [config.batchSize || 10]. *)
Definition batchSize_or_default (size : option Z) : Z :=
  match size with
  | Some n => if (n =? 0)%Z then 10 else n
  | None => 10
  end.

(** The loop [for (let i = 0; i < itemIds.length; i += batchSize)] that
    fills [batches], run for at most [fuel] turns; [None] when the loop is
    still going after that many. *)
Fixpoint split_loop {A} (fuel : nat) (itemIds : list A) (batchSize i : Z)
  (batches : list (list A)) : option (list (list A)) :=
  if decide (i < Z.of_nat (length itemIds)) then
    match fuel with
    | O => None
    | S fuel' =>
        split_loop fuel' itemIds batchSize (i + batchSize)
          (batches ++ [slice itemIds i (i + batchSize)])
    end
  else Some batches.

Definition split {A} (fuel : nat) (itemIds : list A) (size : option Z)
  : option (list (list A)) :=
  split_loop fuel itemIds (batchSize_or_default size) 0 [].

(** [batchActivityQuery] over batches that were all answered:
    [activityQuery] gives, for the identifiers of one batch, the [rows] of
    the answer, [None] when the answer has no such field. *)
Definition merge_rows {A R} (activityQuery : list A -> option (list R))
  (batches : list (list A)) : list R :=
  flat_map (fun batch => default [] (activityQuery batch)) batches.

Definition batchActivityQuery {A R} (fuel : nat)
  (activityQuery : list A -> option (list R))
  (itemIds : list A) (size : option Z) : option (list R) :=
  match split fuel itemIds size with
  | Some batches => Some (merge_rows activityQuery batches)
  | None => None
  end.

End ParallelQueries.

(** * QueryCache: results kept in files *)

Module QueryCache.

(** A file of the cache directory: its text and the instant of its last
    modification.  Instants are counted in milliseconds, as [Date.now()]
    gives them. *)
Record file := File { content : string; mtimeMs : Z }.

(** The cache directory with its files by name, [None] while it does not
    exist.  The file system is taken to be healthy: an operation fails
    only for a file or a directory that is not there. *)
Abbreviation directory := (option (gmap string file)).

(** [name.endsWith(suffix)]. *)
Definition endsWith (name suffix : string) : bool :=
  bool_decide
    (String.list_ascii_of_string suffix `suffix_of`
       String.list_ascii_of_string name).

Record t := Make { cacheDir : string; ttl : Z }.

(** [new QueryCache(cacheDir = './cache', ttl = 3600000)]. *)
Definition create (cacheDir : option string) (ttl : option Z) : t :=
  {| cacheDir := default "./cache" cacheDir; ttl := default 3600000 ttl |}.

(** What [writeFile] says to data that is [undefined]. *)
Definition invalid_data : js_error :=
  new_Error
    ("The " +:+ String JS.dquote ("data" +:+ String JS.dquote
     " argument must be of type string or an instance of Buffer, TypedArray, or DataView. Received undefined")).

(** [QueryCache.createKey(functionName, params)]. *)
Definition createKey (functionName : string) (params : JS.value) : string :=
  functionName +:+ ":" +:+ default "undefined" (JS.JSON_stringify params).

Record cache_stats := {
  totalEntries : nat;
  totalSize : Z;
  oldestEntry : option Z;
  newestEntry : option Z
}.

Section Platform.

(** [createHash('sha256').update(key).digest('hex')] and [JSON.parse],
    [None] standing for a [SyntaxError]. *)
Variable sha256_hex : string -> string.
Variable JSON_parse : string -> option JS.value.

Definition hashKey (key : string) : string := sha256_hex key.

(** The name of the file of [key] inside the cache directory. *)
Definition cacheFile (key : string) : string := hashKey key +:+ ".json".

(** [get(key)] at the instant [now]: the value, [null] for a miss, and the
    directory afterwards. *)
Definition get (c : t) (now : Z) (key : string) (dir : directory)
  : JS.value * directory :=
  match dir with
  | None => (JS.Null, dir)
  | Some files =>
      match files !! cacheFile key with
      | None => (JS.Null, dir)
      | Some stats =>
          let age := now - mtimeMs stats in
          if decide (ttl c < age)
          then (JS.Null, Some (delete (cacheFile key) files))
          else
            match JSON_parse (content stats) with
            | Some value => (value, dir)
            | None => (JS.Null, dir)
            end
      end
  end.

(** [set(key, value)] at the instant [now]. *)
Definition set (c : t) (now : Z) (key : string) (value : JS.value)
  (dir : directory) : settlement unit * directory :=
  let files := default ∅ dir in
  match JS.JSON_stringify value with
  | Some text =>
      (Fulfilled tt, Some (<[cacheFile key := File text now]> files))
  | None => (Rejected invalid_data, Some files)
  end.

Definition clear (c : t) (key : string) (dir : directory) : directory :=
  match dir with
  | None => None
  | Some files => Some (delete (cacheFile key) files)
  end.

Definition clearAll (c : t) (dir : directory) : directory :=
  match dir with
  | None => None
  | Some files =>
      Some (filter (fun entry => endsWith entry.1 ".json" = false) files)
  end.

(** One turn of the loop of [getStats]. *)
Definition count_file (acc : cache_stats) (stats : file) : cache_stats :=
  {| totalEntries := S (totalEntries acc);
     totalSize := totalSize acc + Z.of_nat (String.length (content stats));
     oldestEntry :=
       match oldestEntry acc with
       | None => Some (mtimeMs stats)
       | Some oldest =>
           if decide (mtimeMs stats < oldest) then Some (mtimeMs stats)
           else Some oldest
       end;
     newestEntry :=
       match newestEntry acc with
       | None => Some (mtimeMs stats)
       | Some newest =>
           if decide (newest < mtimeMs stats) then Some (mtimeMs stats)
           else Some newest
       end |}.

Definition no_stats : cache_stats :=
  {| totalEntries := 0; totalSize := 0;
     oldestEntry := None; newestEntry := None |}.

(** [getStats()]: the files are visited in the order in which [readdir]
    lists them. *)
Definition getStats (c : t) (dir : directory) : cache_stats :=
  match dir with
  | None => no_stats
  | Some files =>
      let jsonFiles :=
        filter (fun entry => endsWith entry.1 ".json" = true)
               (map_to_list files) in
      fold_left count_file (map snd jsonFiles) no_stats
  end.

(** One call of a method wrapped by [cached(ttl)]: the answer, the
    directory afterwards, and whether the original method was run. *)
Definition cached_call (c : t) (now : Z) (propertyKey : string)
  (originalMethod : list JS.value -> JS.value) (arguments : list JS.value)
  (dir : directory) : settlement JS.value * directory * bool :=
  let cacheKey := createKey propertyKey (JS.Arr arguments) in
  let (hit, dir1) := get c now cacheKey dir in
  match hit with
  | JS.Null =>
      let result := originalMethod arguments in
      match set c now cacheKey result dir1 with
      | (Fulfilled _, dir2) => (Fulfilled result, dir2, true)
      | (Rejected e, dir2) => (Rejected e, dir2, true)
      | (Pending, dir2) => (Pending, dir2, true)
      end
  | _ => (Fulfilled hit, dir1, false)
  end.

End Platform.

End QueryCache.

(** * The wrapper generator: names *)

Module Generator.

(** Tool names are taken to be ASCII text: the case conversions below are
    those of JavaScript on ASCII letters. *)
Definition is_upper (c : ascii) : bool :=
  let n := N_of_ascii c in ((65 <=? n) && (n <=? 90))%N.

Definition is_lower (c : ascii) : bool :=
  let n := N_of_ascii c in ((97 <=? n) && (n <=? 122))%N.

(** [c.toUpperCase()] and [c.toLowerCase()]. *)
Definition upper (c : ascii) : ascii :=
  if is_lower c then ascii_of_N (N_of_ascii c - 32) else c.

Definition lower (c : ascii) : ascii :=
  if is_upper c then ascii_of_N (N_of_ascii c + 32) else c.

Fixpoint toLowerCase (s : string) : string :=
  match s with
  | EmptyString => ""
  | String c s' => String (lower c) (toLowerCase s')
  end.

(** The text after [prefix], when [s] starts with it. *)
Fixpoint after_prefix (prefix s : string) : option string :=
  match prefix, s with
  | EmptyString, _ => Some s
  | String a prefix', String b s' =>
      if decide (a = b) then after_prefix prefix' s' else None
  | String _ _, EmptyString => None
  end.

(** [str.replace(/^Pendo:/, '')]. *)
Definition remove_prefix (str : string) : string :=
  default str (after_prefix "Pendo:" str).

(** The class [[_-]]. *)
Definition is_separator (c : ascii) : bool :=
  bool_decide (c = "_"%char) || bool_decide (c = "-"%char).

(** [str.split(/[_-]/)]. *)
Fixpoint split (str : string) : list string :=
  match str with
  | EmptyString => [""]
  | String c str' =>
      if is_separator c then "" :: split str'
      else
        match split str' with
        | word :: words => String c word :: words
        | [] => [String c ""]
        end
  end.

(** [word.charAt(0).toUpperCase() + word.slice(1)]. *)
Definition capitalize (word : string) : string :=
  match word with
  | EmptyString => ""
  | String c rest => String (upper c) rest
  end.

Definition toPascalCase (str : string) : string :=
  let str := remove_prefix str in
  String.concat "" (map capitalize (split str)).

Definition toCamelCase (str : string) : string :=
  let str := remove_prefix str in
  let pascal := toPascalCase str in
  match pascal with
  | EmptyString => ""
  | String c rest => String (lower c) rest
  end.

(** [str.replace(/([a-z])([A-Z])/g, '$1-$2')]: a match cannot start on the
    second letter of the match before it, which is a capital, so a dash
    goes between every small letter and the capital that follows it. *)
Fixpoint dash_before_capitals (str : string) : string :=
  match str with
  | EmptyString => ""
  | String a rest =>
      match rest with
      | String b _ =>
          if is_lower a && is_upper b
          then String a (String "-" (dash_before_capitals rest))
          else String a (dash_before_capitals rest)
      | EmptyString => String a ""
      end
  end.

(** The class [[\s_]] on ASCII text. *)
Definition is_blank (c : ascii) : bool :=
  Ascii.is_space c || bool_decide (c = "_"%char).

(** [str.replace(/[\s_]+/g, '-')]: [inside] tells that the character
    before belonged to a run that has its dash already. *)
Fixpoint dash_for_blanks (inside : bool) (str : string) : string :=
  match str with
  | EmptyString => ""
  | String c rest =>
      if is_blank c then
        if inside then dash_for_blanks true rest
        else String "-" (dash_for_blanks true rest)
      else String c (dash_for_blanks false rest)
  end.

Definition toFileName (str : string) : string :=
  let str := remove_prefix str in
  toLowerCase (dash_for_blanks false (dash_before_capitals str)).

(** Every character of [s] passes the test [p]. *)
Fixpoint every (p : ascii -> bool) (s : string) : bool :=
  match s with
  | EmptyString => true
  | String c s' => p c && every p s'
  end.

(** A character that may stand in a file name made by [toFileName]. *)
Definition plain (c : ascii) : bool := negb (is_upper c) && negb (is_blank c).

End Generator.

(** * Skills: accounts at risk, activity by entity type *)

Module EngagementScoring.

Inductive risk_level := low | medium | high.

(** An [EngagementScore]: the score and its factors are what [Math.round]
    gave, whole numbers. *)
Record EngagementScore := {
  accountId : string;
  score : Z;
  frequency : Z;
  breadth : Z;
  depth : Z;
  recency : Z;
  risk : risk_level
}.

(** [config.threshold || 40]. *)
Definition threshold_or_default (threshold : option Z) : Z :=
  match threshold with
  | Some n => if (n =? 0)%Z then 40 else n
  | None => 40
  end.

(** [Array.prototype.sort] with the comparator [(a, b) => a.score - b.score]
    is a stable sort by score: elements with the same score keep their
    order.  It is written here as an insertion from the right. *)
Fixpoint insert_by_score (a : EngagementScore) (sorted : list EngagementScore)
  : list EngagementScore :=
  match sorted with
  | [] => [a]
  | b :: rest =>
      if decide (score a - score b <= 0) then a :: b :: rest
      else b :: insert_by_score a rest
  end.

Definition sort_by_score (l : list EngagementScore) : list EngagementScore :=
  foldr insert_by_score [] l.

(** [findAtRiskAccounts], from the scores that [calculateEngagementScores]
    has returned. *)
Definition findAtRiskAccounts (scores : list EngagementScore)
  (threshold : option Z) : list EngagementScore :=
  let threshold := threshold_or_default threshold in
  sort_by_score (filter (fun s => score s < threshold) scores).

End EngagementScoring.

Module MultiEntity.

(** The last step of [getMultiEntityActivity]: the results, in the order
    of the entities, folded into an object keyed by entity type. *)
Definition by_type {D} (results : list (string * D)) : gmap string D :=
  fold_left (fun acc result => <[result.1 := result.2]> acc) results ∅.

(** [getMultiEntityActivity] over queries that were all answered:
    [activityQuery] gives the answer for an entity type and its
    identifiers. *)
Definition getMultiEntityActivity {D}
  (activityQuery : string -> list string -> D)
  (entities : list (string * list string)) : gmap string D :=
  by_type (map (fun entity => (entity.1, activityQuery entity.1 entity.2))
               entities).

End MultiEntity.

(** ** Vocabulary for the limiter *)

(** No key holds more timestamps than the limit allows. *)
Definition within_limit (rl : RateLimiter.t) : Prop :=
  forall key,
    Z.of_nat (length (RateLimiter.timestamps_of rl key))
    <= Z.max 0 (RateLimiter.limit rl).

(** The grants of [journal] that fall in the window that ends at [now]. *)
Definition grants_in_window (window now : Z)
  (journal : list (string * Z * bool)) (key : string) : list Z :=
  filter (fun ts => now - ts < window) (RateLimiter.granted journal key).

(** The limiter remembers, for every key and from the instant [last] on,
    exactly the grants of [journal] that still count. *)
Definition remembers (rl : RateLimiter.t)
  (journal : list (string * Z * bool)) (last : Z) : Prop :=
  forall key now,
    last <= now ->
    RateLimiter.validTimestamps rl now key
    = grants_in_window (RateLimiter.window rl) now journal key.

(** * Rendering *)

Lemma render_arg_textual (v : JS.value) :
  default "" (render_arg v) = textual_rendering v.
Proof. destruct v; reflexivity. Qed.

Lemma render_args_line (values : list JS.value) :
  render_args values = rendered_line values.
Proof.
  unfold render_args, rendered_line, JS.join.
  f_equal. rewrite map_map. apply map_ext. intros v. apply render_arg_textual.
Qed.

Lemma rendered_line_single (v : JS.value) :
  rendered_line [v] = textual_rendering v.
Proof. reflexivity. Qed.

Lemma length_append (a b : string) :
  String.length (a +:+ b) = (String.length a + String.length b)%nat.
Proof.
  induction a as [|c a IH]; [reflexivity|].
  change (String c a +:+ b) with (String c (a +:+ b)).
  cbn [String.length]. now rewrite IH.
Qed.

(** * Console capture *)

Section Capture.

Lemma override_line (buffer : list string) (c : console_call) :
  CodeExecutor.console_override buffer c =
  (buffer ++ [channel_prefix (chan c) +:+ rendered_line (args c)])%list.
Proof.
  unfold CodeExecutor.console_override. rewrite render_args_line.
  destruct (chan c); reflexivity.
Qed.



(** Steps that leave the array to the console add one line per call. *)
Lemma fold_run_step (l : list step) (buffer : list string) :
  forallb (fun s => negb (is_edit s)) l = true ->
  fold_left CodeExecutor.run_step l buffer =
  (buffer ++
   map (fun c => channel_prefix (chan c) +:+ rendered_line (args c))
       (omap (fun s => match s with Say c => Some c | _ => None end) l))%list.
Proof.
  revert buffer. induction l as [|s l IH]; intros buffer Hl; simpl.
  - now rewrite app_nil_r.
  - simpl in Hl. apply andb_prop in Hl as [Hs Hl].
    rewrite (IH _ Hl).
    destruct s as [c|m|change|path content|path]; simpl;
      try reflexivity; [|discriminate Hs].
    rewrite override_line, <- app_assoc. reflexivity.
Qed.

Lemma leaves_logs_own (f : fragment) :
  leaves_logs f = true -> own_logs f = None.
Proof. unfold leaves_logs. destruct (own_logs f); [discriminate | reflexivity]. Qed.

Lemma worker_captured (f : fragment) :
  leaves_logs f = true ->
  CodeExecutor.captured f =
  map (fun c => channel_prefix (chan c) +:+ rendered_line (args c)) (calls f).
Proof.
  unfold leaves_logs, CodeExecutor.captured, calls.
  destruct (own_logs f); [discriminate|]. intros Hl.
  now rewrite (fold_run_step _ [] Hl).
Qed.


Lemma leaves_logs_in_catch (f : fragment) :
  leaves_logs f = true ->
  CodeExecutor.logs_in_catch f = Some (CodeExecutor.captured f).
Proof.
  intros Hl. unfold CodeExecutor.logs_in_catch.
  now rewrite (leaves_logs_own f Hl).
Qed.


Lemma omap_no_post (l : list step) :
  forallb (fun s => negb (is_post s)) l = true ->
  omap (fun s => match s with Post m => Some m | _ => None end) l = [].
Proof.
  induction l as [|s l IH]; [reflexivity|]. simpl. intros Hl.
  apply andb_prop in Hl as [Hs Hl].
  destruct s; simpl; try (now apply IH). discriminate Hs.
Qed.

Lemma leaves_channel_posts (f : fragment) :
  leaves_channel f = true -> takes_over f = None /\ posts f = [].
Proof.
  unfold leaves_channel, posts. destruct (takes_over f); [discriminate|].
  intros Hl. split; [reflexivity | now apply omap_no_post].
Qed.

Lemma leaves_channel_emissions (w : world) (f : fragment) :
  leaves_channel f = true ->
  CodeExecutor.emissions w f = CodeExecutor.closing w f.
Proof.
  intros Hl. destruct (leaves_channel_posts f Hl) as [Ht Hp].
  unfold CodeExecutor.emissions. now rewrite Ht, Hp.
Qed.

End Capture.

(** * The launcher as a state machine *)

Section Launcher.

Import CodeExecutor.

Variable options : ExecutionOptions.

Ltac lcases s :=
  destruct s as [[| |] [|] [|]]; simpl in *; try reflexivity; try congruence.

Lemma dispatch_settled (s : launch) (ev : event) :
  is_settled (promise s) = true ->
  promise (dispatch options s ev) = promise s.
Proof.
  intros Hs. destruct ev as [m|e|code|]; lcases s;
    unfold on_exit; simpl; try case_decide; reflexivity.
Qed.

Lemma run_events_settled (evs : list event) (s : launch) :
  is_settled (promise s) = true ->
  promise (run_events options evs s) = promise s.
Proof.
  unfold run_events. revert s.
  induction evs as [|ev evs IH]; intros s Hs; [reflexivity|].
  simpl. rewrite IH.
  - now apply dispatch_settled.
  - rewrite dispatch_settled by assumption. assumption.
Qed.

Lemma dispatch_tidy (s : launch) (ev : event) :
  tidy s -> tidy (dispatch options s ev).
Proof.
  unfold tidy. intros Hs.
  destruct ev as [m|e|code|]; destruct s as [[| |] [|] [|]]; simpl in *;
    unfold on_exit; simpl; try case_decide; simpl; intros Hset;
    try discriminate Hset; try (split; reflexivity);
    destruct (Hs eq_refl); discriminate.
Qed.

Lemma run_events_tidy (evs : list event) (s : launch) :
  tidy s -> tidy (run_events options evs s).
Proof.
  unfold run_events. revert s.
  induction evs as [|ev evs IH]; intros s Hs; [assumption|].
  simpl. apply IH. now apply dispatch_tidy.
Qed.

Lemma launched_tidy : tidy (launched options).
Proof. unfold tidy. simpl. discriminate. Qed.

Lemma message_first (m : posted) (rest : list event) :
  promise (run_events options (EvMessage m :: rest) (launched options))
  = Fulfilled m.
Proof. simpl. now rewrite run_events_settled. Qed.

Lemma error_first (x : thrown) (rest : list event) :
  promise (run_events options (EvError x :: rest) (launched options))
  = Rejected x.
Proof. simpl. now rewrite run_events_settled. Qed.

Lemma exit_first (code : Z) (rest : list event) :
  code <> 0 ->
  promise (run_events options (EvExit code :: rest) (launched options))
  = Rejected (exit_error code).
Proof.
  intros Hc. simpl. unfold on_exit. simpl. case_decide; [|contradiction].
  now rewrite run_events_settled.
Qed.

Lemma timer_first (rest : list event) :
  truthy (timeout options) = true ->
  promise (run_events options (EvTimer :: rest) (launched options))
  = Rejected (timeout_error options).
Proof. intros Ht. simpl. rewrite Ht. simpl. now rewrite run_events_settled. Qed.

Lemma timer_first_stops (rest : list event) :
  truthy (timeout options) = true ->
  running (run_events options (EvTimer :: rest) (launched options)) = false.
Proof.
  intros Ht. apply (run_events_tidy _ _ launched_tidy).
  now rewrite timer_first.
Qed.

(** A unit that leaves with status 0 and without a report cancels the
    timer and settles nothing. *)
Lemma exit_zero_alone :
  promise (run_events options [EvExit 0] (launched options)) = Pending /\
  timer (run_events options [EvExit 0] (launched options)) = false.
Proof. split; reflexivity. Qed.

Lemma exit_zero_then_timer :
  promise (run_events options [EvExit 0; EvTimer] (launched options))
  = Pending.
Proof. reflexivity. Qed.

(** Without a timer and without an event nothing ever settles. *)
Lemma nothing_happens :
  promise (run_events options [] (launched options)) = Pending.
Proof. reflexivity. Qed.

End Launcher.

(** * From the launch to the result *)

Section Execute.

Import CodeExecutor.

Variables (w : world) (f : fragment) (options : ExecutionOptions).
Variable d : disk.

Local Abbreviation opts := (spread defaultOptions options).
Local Abbreviation unit := (executeInWorker w f (tempFile w) opts []).
Local Abbreviation staged := (<[tempFile w := wrapCode (source f)]> d).
Local Abbreviation worked := ((worker_runs w f staged).2).

Lemma execute_stage_failure (e : js_error) :
  stage_failure w = Some e ->
  execute w f options d = (Fulfilled (failure w (message e)), d).
Proof.
  intros Hst. unfold execute, try_catch, bind, writeFile.
  rewrite Hst. reflexivity.
Qed.

Lemma execute_rejected (x : thrown) :
  stage_failure w = None ->
  promise unit = Rejected x ->
  execute w f options d =
  (match read_message x with
   | Done text => Fulfilled (caught w text)
   | Failed e => Rejected e
   end, worked).
Proof.
  intros Hst Hp. unfold execute, try_catch, bind, writeFile, await.
  rewrite Hst. cbn [worker_runs fst snd]. rewrite Hp.
  destruct (read_message x); reflexivity.
Qed.

Lemma execute_rejected_error (e : js_error) :
  stage_failure w = None ->
  promise unit = Rejected e ->
  execute w f options d = (Fulfilled (failure w (message e)), worked).
Proof. intros Hst Hp. now rewrite (execute_rejected e Hst Hp). Qed.

Lemma execute_pending :
  stage_failure w = None ->
  promise unit = Pending ->
  execute w f options d = (Pending, worked).
Proof.
  intros Hst Hp. unfold execute, try_catch, bind, writeFile, await.
  rewrite Hst. cbn [worker_runs fst snd]. rewrite Hp. reflexivity.
Qed.

(** The disk once [unlink] has been tried and its failure ignored. *)
Lemma unlink_ignored (disk0 : disk) :
  ignore_errors (unlink w (tempFile w)) disk0 =
  (Fulfilled tt,
   match unlink_failure w with
   | None => delete (tempFile w) disk0
   | Some _ => disk0
   end).
Proof.
  unfold ignore_errors, try_catch, unlink, ret.
  destruct (unlink_failure w) as [e|]; [reflexivity|].
  destruct (disk0 !! tempFile w) eqn:Hfile; [reflexivity|].
  now rewrite delete_id.
Qed.

Lemma execute_fulfilled (m : worker_message) :
  stage_failure w = None ->
  promise unit = Fulfilled (Report m) ->
  execute w f options d =
  (Fulfilled (relayed w m),
   match unlink_failure w with
   | None => delete (tempFile w) worked
   | Some _ => worked
   end).
Proof.
  intros Hst Hp.
  unfold execute, try_catch, bind, writeFile, await.
  rewrite Hst. cbn [worker_runs fst snd]. rewrite Hp, unlink_ignored.
  unfold relayed. simpl. destruct (msg_success m); reflexivity.
Qed.

(** A message without fields makes [result.success] throw, after the
    file was removed and inside the [try]. *)
Lemma execute_blank (n : nullish) :
  stage_failure w = None ->
  promise unit = Fulfilled (Blank n) ->
  execute w f options d =
  (Fulfilled
     (failure w (message (cannot_read (nullish_text n) "success"))),
   match unlink_failure w with
   | None => delete (tempFile w) worked
   | Some _ => worked
   end).
Proof.
  intros Hst Hp.
  unfold execute, try_catch, bind, writeFile, await.
  rewrite Hst. cbn [worker_runs fst snd]. rewrite Hp, unlink_ignored.
  reflexivity.
Qed.

(** What the unit lets the host see first decides, provided the deadline
    does not come before it. *)
Lemma unit_sends_first (m : posted) (rest : list emission) :
  spawn_failure w = None ->
  winner w = UnitFirst ->
  emissions w f = Sends m :: rest ->
  promise unit = Fulfilled m.
Proof.
  intros Hsp Hwin Hem. unfold executeInWorker, delivered, unit_events.
  rewrite Hsp, Hwin, Hem.
  destruct (truthy (timeout opts)); simpl; apply message_first.
Qed.



Lemma unit_leaves_quietly :
  spawn_failure w = None ->
  winner w = UnitFirst ->
  emissions w f = [Leaves 0] ->
  promise unit = Pending.
Proof.
  intros Hsp Hwin Hem. unfold executeInWorker, delivered, unit_events.
  rewrite Hsp, Hwin, Hem.
  destruct (truthy (timeout opts)); simpl map; simpl app;
    [apply exit_zero_then_timer | apply exit_zero_alone].
Qed.

(** The report of the generated program is what the launcher resolves
    with, when the fragment has left the channel alone. *)
Lemma unit_reports (m : worker_message) :
  spawn_failure w = None ->
  winner w = UnitFirst ->
  leaves_channel f = true ->
  report (heap_delta w) f = Some m ->
  promise unit = Fulfilled (Report m).
Proof.
  intros Hsp Hwin Hl Hrep.
  apply (unit_sends_first _ [Leaves 1] Hsp Hwin).
  rewrite (leaves_channel_emissions w f Hl). unfold closing.
  now rewrite Hrep.
Qed.

Lemma deadline_armed (rest : list event) :
  delivered w opts f = EvTimer :: rest -> truthy (timeout opts) = true.
Proof.
  unfold delivered, unit_events.
  destruct (truthy (timeout opts)); [reflexivity|].
  destruct (emissions w f) as [|[m|x|code] l]; discriminate.
Qed.

Lemma deadline_rejects (rest : list event) :
  spawn_failure w = None ->
  delivered w opts f = EvTimer :: rest ->
  promise unit = Rejected (timeout_error opts) /\ running unit = false.
Proof.
  intros Hsp Hdel. pose proof (deadline_armed _ Hdel) as Harmed.
  unfold executeInWorker. rewrite Hsp, Hdel.
  split; [now apply timer_first | now apply timer_first_stops].
Qed.

(** A fragment that keeps the thread busy and sends nothing meets the
    deadline when there is one, and nothing at all when there is none. *)
Lemma busy_unit :
  spawn_failure w = None ->
  leaves_channel f = true ->
  ends f = Hangs ->
  promise unit =
  if truthy (timeout opts) then Rejected (timeout_error opts) else Pending.
Proof.
  intros Hsp Hl Hend. unfold executeInWorker, delivered, unit_events.
  rewrite Hsp, (leaves_channel_emissions w f Hl).
  unfold closing, report. rewrite Hend. simpl map.
  destruct (truthy (timeout opts)) eqn:Harmed; [|reflexivity].
  destruct (winner w); simpl app; now apply timer_first.
Qed.

End Execute.

(** * Substrings *)

Lemma contains_front (a b : string) : contains a (a +:+ b).
Proof. exists "", b. reflexivity. Qed.

Lemma contains_inside (a b c : string) : contains b (a +:+ b +:+ c).
Proof. exists a, c. reflexivity. Qed.

Lemma append_assoc (a b c : string) : (a +:+ b) +:+ c = a +:+ (b +:+ c).
Proof.
  induction a as [|x a IH]; [reflexivity|].
  change ((String x a +:+ b) +:+ c) with (String x ((a +:+ b) +:+ c)).
  change (String x a +:+ (b +:+ c)) with (String x (a +:+ (b +:+ c))).
  now rewrite IH.
Qed.

Lemma append_nil_r (a : string) : a +:+ "" = a.
Proof.
  induction a as [|x a IH]; [reflexivity|].
  change (String x a +:+ "") with (String x (a +:+ "")). now rewrite IH.
Qed.

Lemma contains_refl (a : string) : contains a a.
Proof. exists "", "". change ("" +:+ a +:+ "") with (a +:+ ""). now rewrite append_nil_r. Qed.

Lemma contains_app_r (x a b : string) : contains x b -> contains x (a +:+ b).
Proof.
  intros (p & q & ->). exists (a +:+ p), q. now rewrite append_assoc.
Qed.

Lemma contains_app_l (x a b : string) : contains x a -> contains x (a +:+ b).
Proof.
  intros (p & q & ->). exists p, (q +:+ b). now rewrite !append_assoc.
Qed.

Lemma contains_concat (sep x : string) (l : list string) :
  x ∈ l -> contains x (String.concat sep l).
Proof.
  induction l as [|a l IH]; intros Hin.
  - now apply elem_of_nil in Hin.
  - apply elem_of_cons in Hin as [->|Hin].
    + destruct l as [|b l]; [apply contains_refl | apply contains_app_l, contains_refl].
    + destruct l as [|b l]; [now apply elem_of_nil in Hin|].
      change (String.concat sep (a :: b :: l))
        with (a +:+ sep +:+ String.concat sep (b :: l)).
      apply contains_app_r, contains_app_r, IH, Hin.
Qed.

Lemma describe_error_nonempty (e : js_error) : describe_error e <> "".
Proof.
  intros H. apply (f_equal String.length) in H.
  unfold describe_error in H. rewrite !length_append in H.
  simpl in H. lia.
Qed.

Lemma describe_nonempty (x : thrown) (text : string) :
  describe x = Done text -> text <> "".
Proof.
  destruct x as [e|n|v]; intros [= <-];
    [apply describe_error_nonempty | discriminate].
Qed.

(** * Successful runs *)




(** * Errors thrown by the fragment *)




(** * The deadline race *)

Lemma first_settlement_wins
  (options : ExecutionOptions) (evs later : list CodeExecutor.event)
  (s : CodeExecutor.launch) :
  is_settled (CodeExecutor.promise (CodeExecutor.run_events options evs s))
  = true ->
  CodeExecutor.promise (CodeExecutor.run_events options (evs ++ later)%list s)
  = CodeExecutor.promise (CodeExecutor.run_events options evs s).
Proof.
  intros Hs. unfold CodeExecutor.run_events at 1. rewrite fold_left_app.
  now apply run_events_settled.
Qed.

(** C3: when the timer callback runs before any event of the unit reaches
    the host, the thread is terminated and [execute] returns
    [success = false] with an error text that contains the configured
    duration and the word [timeout].  Exactly one side of the race is
    observed: whatever arrives after the timer has fired, a late report
    included, the outcome stays the timeout; a report that arrives first
    stays the outcome whatever follows, the timer included; and in general
    the first settlement is the one that is kept. *)
Theorem deadline_wins_the_race
  (w : world) (f : fragment) (options : ExecutionOptions) (d : disk)
  (rest : list CodeExecutor.event) :
  stage_failure w = None ->
  spawn_failure w = None ->
  CodeExecutor.delivered w (spread CodeExecutor.defaultOptions options) f
  = CodeExecutor.EvTimer :: rest ->
  CodeExecutor.running
    (CodeExecutor.executeInWorker w f (CodeExecutor.tempFile w)
       (spread CodeExecutor.defaultOptions options) []) = false /\
  (exists r text,
      answer (CodeExecutor.execute w f options) d = Fulfilled r /\
      success r = false /\
      error r = Some text /\
      contains
        (show_number (timeout (spread CodeExecutor.defaultOptions options)))
        text /\
      contains "timeout" text) /\
  (forall later,
      CodeExecutor.promise
        (CodeExecutor.run_events
           (spread CodeExecutor.defaultOptions options)
           (CodeExecutor.EvTimer :: later)
           (CodeExecutor.launched
              (spread CodeExecutor.defaultOptions options)))
      = Rejected
          (CodeExecutor.timeout_error
             (spread CodeExecutor.defaultOptions options))) /\
  (forall m later,
      CodeExecutor.promise
        (CodeExecutor.run_events
           (spread CodeExecutor.defaultOptions options)
           (CodeExecutor.EvMessage m :: later)
           (CodeExecutor.launched
              (spread CodeExecutor.defaultOptions options)))
      = Fulfilled m) /\
  (forall evs later,
      is_settled
        (CodeExecutor.promise
           (CodeExecutor.run_events
              (spread CodeExecutor.defaultOptions options) evs
              (CodeExecutor.launched
                 (spread CodeExecutor.defaultOptions options)))) = true ->
      CodeExecutor.promise
        (CodeExecutor.run_events
           (spread CodeExecutor.defaultOptions options) (evs ++ later)%list
           (CodeExecutor.launched
              (spread CodeExecutor.defaultOptions options)))
      = CodeExecutor.promise
          (CodeExecutor.run_events
             (spread CodeExecutor.defaultOptions options) evs
             (CodeExecutor.launched
                (spread CodeExecutor.defaultOptions options)))).
Proof.
  intros Hst Hsp Hdel.
  destruct (deadline_rejects w f options rest Hsp Hdel) as [Hrej Hrun].
  pose proof (deadline_armed w f options rest Hdel) as Harmed.
  split; [exact Hrun|]. split; [|split; [|split]].
  - eexists _, _. unfold answer.
    rewrite (execute_rejected_error w f options d _ Hst Hrej). simpl.
    repeat split.
    + apply (contains_inside "Execution timeout after " _ "ms").
    + exists "Execution ",
        (" after " +:+
         show_number (timeout (spread CodeExecutor.defaultOptions options))
         +:+ "ms").
      reflexivity.
  - intros later. now apply timer_first.
  - intros m later. apply message_first.
  - intros evs later. apply first_settlement_wins.
Qed.

Lemma deadline_wins_the_race_witness :
  CodeExecutor.delivered late
    (spread CodeExecutor.defaultOptions (within 200)) log_then_spin
  = [CodeExecutor.EvTimer; CodeExecutor.EvExit 1] /\
  exists r,
    answer (CodeExecutor.execute late log_then_spin (within 200)) ∅
    = Fulfilled r /\
    success r = false /\
    exists text, error r = Some text /\ contains "200" text.
Proof.
  split; [reflexivity|].
  destruct (deadline_wins_the_race late log_then_spin (within 200) ∅
              [CodeExecutor.EvExit 1] eq_refl eq_refl eq_refl)
    as (_ & (r & text & Hr & Hs & He & Hc & _) & _).
  exists r. repeat split; try assumption. exists text. split; assumption.
Defined.

(** * No thread is left behind *)

(** C8: for every launched unit and whatever the host's event loop
    delivers, as soon as the launcher's promise is settled the worker
    thread is no longer running and no timer is left scheduled; the same
    holds of [executeInWorker] for every fragment and platform.  In
    particular the thread is gone on each resolution path: the unit sends
    a message (the handler terminates it), the unit raises an
    environment-level error, the unit exits without a message, and the
    timer fires (the callback terminates it). *)
Theorem settled_launch_has_no_thread
  (options : ExecutionOptions) (evs : list CodeExecutor.event) :
  is_settled
    (CodeExecutor.promise
       (CodeExecutor.run_events options evs (CodeExecutor.launched options)))
  = true ->
  (CodeExecutor.running
     (CodeExecutor.run_events options evs (CodeExecutor.launched options))
   = false /\
   CodeExecutor.timer
     (CodeExecutor.run_events options evs (CodeExecutor.launched options))
   = false) /\
  (forall w f path buffer,
      is_settled
        (CodeExecutor.promise
           (CodeExecutor.executeInWorker w f path options buffer)) = true ->
      CodeExecutor.running
        (CodeExecutor.executeInWorker w f path options buffer) = false) /\
  (forall m,
      CodeExecutor.running
        (CodeExecutor.dispatch options (CodeExecutor.launched options)
           (CodeExecutor.EvMessage m)) = false) /\
  (forall e,
      CodeExecutor.running
        (CodeExecutor.dispatch options (CodeExecutor.launched options)
           (CodeExecutor.EvError e)) = false) /\
  (forall code,
      CodeExecutor.running
        (CodeExecutor.dispatch options (CodeExecutor.launched options)
           (CodeExecutor.EvExit code)) = false) /\
  (truthy (timeout options) = true ->
   CodeExecutor.running
     (CodeExecutor.dispatch options (CodeExecutor.launched options)
        CodeExecutor.EvTimer) = false).
Proof.
  intros Hs. split; [|split; [|split; [|split; [|split]]]].
  - exact (run_events_tidy options evs _ (launched_tidy options) Hs).
  - intros w f path buffer. unfold CodeExecutor.executeInWorker.
    destruct (spawn_failure w) as [e|]; [reflexivity|].
    intros H. exact (proj1 (run_events_tidy options _ _
                              (launched_tidy options) H)).
  - intros m. reflexivity.
  - intros e. reflexivity.
  - intros code. unfold CodeExecutor.dispatch, CodeExecutor.on_exit. simpl.
    case_decide; reflexivity.
  - intros Ht. simpl. rewrite Ht. reflexivity.
Qed.

Lemma settled_launch_has_no_thread_witness :
  is_settled
    (CodeExecutor.promise
       (CodeExecutor.run_events (within 200)
          [CodeExecutor.EvExit 3; CodeExecutor.EvTimer]
          (CodeExecutor.launched (within 200)))) = true /\
  CodeExecutor.running
    (CodeExecutor.run_events (within 200)
       [CodeExecutor.EvExit 3; CodeExecutor.EvTimer]
       (CodeExecutor.launched (within 200))) = false.
Proof.
  split; [reflexivity|].
  exact (proj1 (proj1 (settled_launch_has_no_thread (within 200)
                         [CodeExecutor.EvExit 3; CodeExecutor.EvTimer]
                         eq_refl))).
Defined.

(** * Every way a call can end *)

Section Answers.

Import CodeExecutor.

Variables (w : world) (f : fragment) (options : ExecutionOptions).
Variable d : disk.

Local Abbreviation opts := (spread defaultOptions options).
Local Abbreviation unit := (executeInWorker w f (tempFile w) opts []).

(** The answer of [execute] by what became of the staging and of the
    launch, whatever the fragment does. *)
Lemma execute_by_launch :
  (exists e, stage_failure w = Some e /\
             answer (execute w f options) d
             = Fulfilled (failure w (message e))) \/
  (stage_failure w = None /\
   ((promise unit = Pending /\
     answer (execute w f options) d = Pending) \/
    (exists m, promise unit = Fulfilled (Report m) /\
               answer (execute w f options) d = Fulfilled (relayed w m)) \/
    (exists n, promise unit = Fulfilled (Blank n) /\
               answer (execute w f options) d
               = Fulfilled
                   (failure w
                      (message (cannot_read (nullish_text n) "success")))) \/
    (exists x text, promise unit = Rejected x /\
                    read_message x = Done text /\
                    answer (execute w f options) d
                    = Fulfilled (caught w text)) \/
    (exists n, promise unit = Rejected (Nullish n) /\
               answer (execute w f options) d
               = Rejected
                   (ErrorObject
                      (cannot_read (nullish_text n) "message"))))).
Proof.
  unfold answer.
  destruct (stage_failure w) as [e|] eqn:Hst.
  { left. exists e. split; [reflexivity|].
    now rewrite (execute_stage_failure w f options d e Hst). }
  right. split; [reflexivity|].
  destruct (promise unit) as [|[n|m]|x] eqn:Hp.
  - left. split; [reflexivity|].
    now rewrite (execute_pending w f options d Hst Hp).
  - right; right; left. exists n. split; [reflexivity|].
    now rewrite (execute_blank w f options d n Hst Hp).
  - right; left. exists m. split; [reflexivity|].
    now rewrite (execute_fulfilled w f options d m Hst Hp).
  - rewrite (execute_rejected w f options d x Hst Hp).
    destruct x as [e|n|v]; simpl.
    + right; right; right; left. exists (ErrorObject e), (Some (message e)).
      repeat split.
    + right; right; right; right. exists n. split; reflexivity.
    + right; right; right; left. exists (Primitive v), None. repeat split.
Qed.


(** Every result is built by the [catch] clause or repeats a message. *)
Lemma execute_results (r : ExecutionResult) :
  answer (execute w f options) d = Fulfilled r ->
  (exists text, r = caught w text) \/
  (exists m, stage_failure w = None /\
             promise unit = Fulfilled (Report m) /\ r = relayed w m).
Proof.
  intros Hr.
  destruct execute_by_launch
    as [(e & _ & H)|[Hst [[_ H]|[(m & Hp & H)|[(n & _ & H)|
         [(y & text & _ & _ & H)|(n & _ & H)]]]]]];
    rewrite H in Hr; try discriminate; injection Hr as <-.
  - left. eexists. reflexivity.
  - right. exists m. repeat split; assumption.
  - left. eexists. reflexivity.
  - left. eexists. reflexivity.
Qed.

(** What the report of the generated program looks like. *)
Lemma report_shapes (m : worker_message) :
  report (heap_delta w) f = Some m ->
  (ends f = Completes /\
   m = Message true (Some JS.Null) (logs_in_try f) None
         (Some (heap_delta w))) \/
  (exists x text, ends f = Throws x /\ describe x = Done text /\
                  m = Message false None (logs_in_catch f)
                        (Some text) None).
Proof.
  unfold report. destruct (ends f) as [|x|v| | |code|x]; try discriminate.
  - intros [= <-]. left. split; reflexivity.
  - destruct (describe x) as [text|e] eqn:Hx; [|discriminate].
    intros [= <-]. right. exists x, text. repeat split. exact Hx.
Qed.

Hypothesis Hchannel : leaves_channel f = true.

(** How the launcher's promise can stand once the thread was started,
    for a fragment that has left the channel alone. *)
Lemma launch_outcomes :
  spawn_failure w = None ->
  promise unit = Pending \/
  (exists m, report (heap_delta w) f = Some m /\
             promise unit = Fulfilled (Report m)) \/
  promise unit = Rejected (ErrorObject (timeout_error opts)) \/
  (exists code, code <> 0 /\ ends f = Exits code /\
                promise unit = Rejected (ErrorObject (exit_error code))) \/
  (exists x, ends f = Uncaught x /\ promise unit = Rejected x) \/
  (exists n, ends f = Throws (Nullish n) /\
             promise unit
             = Rejected (ErrorObject
                           (cannot_read (nullish_text n) "message"))).
Proof.
  intros Hsp. unfold executeInWorker, delivered, unit_events. rewrite Hsp.
  rewrite (leaves_channel_emissions w f Hchannel).
  destruct (truthy (timeout opts)) eqn:Harmed.
  - destruct (winner w).
    2:{ right; right; left. now apply timer_first. }
    unfold closing.
    destruct (report (heap_delta w) f) as [m|] eqn:Hrep.
    { right; left. exists m. split; [reflexivity|]. apply message_first. }
    unfold report in Hrep.
    destruct (ends f) as [|x|v| | |code|x] eqn:Hend; try discriminate.
    + destruct x as [e|n|v]; try discriminate. simpl.
      do 5 right. exists n. split; [reflexivity|].
      first [apply error_first | reflexivity].
    + left. apply exit_zero_then_timer.
    + right; right; left. now apply timer_first.
    + left. apply exit_zero_then_timer.
    + destruct (decide (code = 0)) as [->|Hc].
      { left. apply exit_zero_then_timer. }
      right; right; right; left. exists code.
      repeat split; try assumption. now apply exit_first.
    + right; right; right; right; left. exists x.
      split; [reflexivity|]. apply error_first.
  - unfold closing.
    destruct (report (heap_delta w) f) as [m|] eqn:Hrep.
    { right; left. exists m. split; [reflexivity|]. apply message_first. }
    unfold report in Hrep.
    destruct (ends f) as [|x|v| | |code|x] eqn:Hend; try discriminate.
    + destruct x as [e|n|v]; try discriminate. simpl.
      do 5 right. exists n. split; [reflexivity|].
      first [apply error_first | reflexivity].
    + left. apply exit_zero_alone.
    + left. reflexivity.
    + left. apply exit_zero_alone.
    + destruct (decide (code = 0)) as [->|Hc].
      { left. apply exit_zero_alone. }
      right; right; right; left. exists code.
      repeat split; try assumption. now apply exit_first.
    + right; right; right; right; left. exists x.
      split; [reflexivity|]. apply error_first.
Qed.

(** The shape of every answer of [execute] for such a fragment: it has
    not come, or it is a failure built by the [catch] clause, or it
    repeats the report of the generated program, or it is the
    [TypeError] of the [catch] clause itself. *)
Lemma execute_outcomes :
  answer (execute w f options) d = Pending \/
  (exists msg,
      answer (execute w f options) d = Fulfilled (failure w msg) /\
      ((exists e, msg = message e /\
                  (stage_failure w = Some e \/ spawn_failure w = Some e \/
                   ends f = Uncaught (ErrorObject e))) \/
       msg = message (timeout_error opts) \/
       (exists code, code <> 0 /\ msg = message (exit_error code)) \/
       (exists n, ends f = Throws (Nullish n) /\
                  msg = message (cannot_read (nullish_text n) "message")))) \/
  (exists m,
      report (heap_delta w) f = Some m /\
      answer (execute w f options) d = Fulfilled (relayed w m)) \/
  (exists v,
      ends f = Uncaught (Primitive v) /\
      answer (execute w f options) d = Fulfilled (caught w None)) \/
  (exists n,
      ends f = Uncaught (Nullish n) /\
      answer (execute w f options) d
      = Rejected (ErrorObject (cannot_read (nullish_text n) "message"))).
Proof.
  unfold answer.
  destruct (stage_failure w) as [e|] eqn:Hst.
  { right; left. exists (message e).
    rewrite (execute_stage_failure w f options d e Hst).
    split; [reflexivity|]. left. exists e. auto. }
  destruct (spawn_failure w) as [e|] eqn:Hsp.
  { right; left. exists (message e).
    rewrite (execute_rejected_error w f options d e Hst).
    - split; [reflexivity|]. left. exists e. auto.
    - unfold executeInWorker. now rewrite Hsp. }
  destruct (launch_outcomes Hsp)
    as [Hp|[(m & Hrep & Hp)|[Hp|[(code & Hc & _ & Hp)|
         [(x & Hend & Hp)|(n & Hend & Hp)]]]]].
  - left. now rewrite (execute_pending w f options d Hst Hp).
  - right; right; left. exists m. split; [assumption|].
    now rewrite (execute_fulfilled w f options d m Hst Hp).
  - right; left. eexists.
    rewrite (execute_rejected_error w f options d _ Hst Hp).
    split; [reflexivity|]. right; left. reflexivity.
  - right; left. eexists.
    rewrite (execute_rejected_error w f options d _ Hst Hp).
    split; [reflexivity|]. right; right; left. exists code. auto.
  - rewrite (execute_rejected w f options d x Hst Hp).
    destruct x as [e|n|v]; simpl.
    + right; left. exists (message e). split; [reflexivity|].
      left. exists e. auto.
    + do 4 right. exists n. split; [assumption | reflexivity].
    + right; right; right; left. exists v. split; [assumption | reflexivity].
  - right; left. eexists.
    rewrite (execute_rejected_error w f options d _ Hst Hp).
    split; [reflexivity|]. do 3 right. exists n. split; [assumption | reflexivity].
Qed.

End Answers.

(** * Failures come back as results *)




(** * The error field *)

(** C5, as stated, fails in its second half: an error raised inside the
    unit from a callback, outside the fragment's [try], comes back with
    the message of that error as it is, and [new Error()] has the empty
    message. *)
Lemma blank_error_message :
  exists r,
    answer (CodeExecutor.execute calm late_blank_throw no_options) ∅
    = Fulfilled r /\
    success r = false /\
    error r = Some "".
Proof. eexists. repeat split. Qed.

(** C5 (amended): in every result of [execute], [success = true] goes
    with no error field.  For a fragment that has left the message
    channel of the unit alone, [success = false] goes with an error field
    that holds a string, except when a value that is no object (a
    string, a number, a boolean) escaped from a callback of the fragment,
    where the field holds [undefined].  The string is non-empty when the
    generated program itself reported the failure, when the deadline
    struck and when the unit exited with a non-zero status; otherwise it
    is the message of the error that rejected the launch (staging, start
    of the context, or an error raised in the unit outside the
    fragment's [try]), empty only when that message is.  A fragment that
    posts the message itself decides on the field itself. *)
Theorem error_field_follows_success
  (w : world) (f : fragment) (options : ExecutionOptions) (d : disk)
  (r : ExecutionResult) :
  answer (CodeExecutor.execute w f options) d = Fulfilled r ->
  (success r = true -> error r = None) /\
  (success r = false -> leaves_channel f = true ->
   (exists text,
       error r = Some text /\
       (text = "" ->
        exists e, message e = "" /\
                  (stage_failure w = Some e \/ spawn_failure w = Some e \/
                   ends f = Uncaught (ErrorObject e)))) \/
   (error r = None /\ exists v, ends f = Uncaught (Primitive v))) /\
  (forall m,
      stage_failure w = None ->
      CodeExecutor.promise
        (CodeExecutor.executeInWorker w f (CodeExecutor.tempFile w)
           (spread CodeExecutor.defaultOptions options) [])
      = Fulfilled (Report m) ->
      success r = false -> error r = msg_error m).
Proof.
  intros Hr. split; [|split].
  - destruct (execute_results w f options d r Hr) as [[text ->]|(m & _ & _ & ->)];
      simpl; [discriminate|].
    destruct (msg_success m); [reflexivity | discriminate].
  - intros Hfail Hchannel.
    destruct (execute_outcomes w f options d Hchannel)
      as [H|[(msg & H & Hmsg)|[(m & Hrep & H)|[(v & Hend & H)|(n & _ & H)]]]];
      rewrite H in Hr; try discriminate; injection Hr as <-.
    + left. exists msg. split; [reflexivity|]. intros ->.
      destruct Hmsg as [(e & He & Hwhere)|[He|[(code & _ & He)|(n & _ & He)]]];
        try discriminate He.
      exists e. split; [now symmetry | assumption].
    + destruct (report_shapes w f m Hrep)
        as [[_ ->]|(x & text & _ & Hx & ->)]; simpl in *; [discriminate|].
      left. exists text. split; [reflexivity|].
      intros Hempty. now apply (describe_nonempty x) in Hempty.
    + right. split; [reflexivity|]. exists v. exact Hend.
  - intros m Hst Hp Hfail. unfold answer in Hr.
    rewrite (execute_fulfilled w f options d m Hst Hp) in Hr.
    injection Hr as <-. simpl in *. now rewrite Hfail.
Qed.

Lemma error_field_follows_success_witness :
  leaves_channel throw_boom = true /\
  exists r,
    answer (CodeExecutor.execute calm throw_boom no_options) ∅ = Fulfilled r /\
    success r = false /\
    exists text, error r = Some text /\ text <> "".
Proof.
  split; [reflexivity|].
  eexists. split; [reflexivity|]. split; [reflexivity|].
  match goal with
  | |- exists text, error ?r = Some text /\ _ =>
      assert (Hr : answer (CodeExecutor.execute calm throw_boom no_options) ∅
                   = Fulfilled r) by reflexivity;
      destruct (proj1 (proj2 (error_field_follows_success calm throw_boom
                                no_options ∅ r Hr)) eq_refl eq_refl)
        as [(text & Htext & _)|[Hnone _]]
  end.
  - exists text. split; [exact Htext|].
    simpl in Htext. injection Htext as <-. discriminate.
  - discriminate Hnone.
Defined.

(** * The temporary file *)

Section TempFile.

Import CodeExecutor.

Variables (w : world) (f : fragment) (options : ExecutionOptions).
Variable d : disk.

Local Abbreviation unit :=
  (executeInWorker w f (tempFile w) (spread defaultOptions options) []).

(** After a message from the unit the file is removed, unless [unlink]
    itself fails. *)
Lemma temp_file_removed_after_report (m : posted) :
  stage_failure w = None ->
  unlink_failure w = None ->
  promise unit = Fulfilled m ->
  disk_after (execute w f options) d !! tempFile w = None.
Proof.
  intros Hst Hun Hp. unfold disk_after. destruct m as [n|m].
  - rewrite (execute_blank w f options d n Hst Hp), Hun. simpl.
    apply lookup_delete_eq.
  - rewrite (execute_fulfilled w f options d m Hst Hp), Hun. simpl.
    apply lookup_delete_eq.
Qed.

(** When the launcher rejects, control goes to the [catch] clause and
    the [unlink] after the [await] is skipped: the file is still there,
    unless the fragment itself has done away with it. *)
Lemma temp_file_kept_after_rejection (x : thrown) :
  stage_failure w = None ->
  promise unit = Rejected x ->
  forallb (fun s => negb (is_file_step s)) (steps f) = true ->
  disk_after (execute w f options) d !! tempFile w
  = Some (wrapCode (source f)).
Proof.
  intros Hst Hp Hfiles. unfold disk_after.
  rewrite (execute_rejected w f options d x Hst Hp). simpl.
  assert (Hsame : forall l disk0,
             forallb (fun s => negb (is_file_step s)) l = true ->
             fold_left file_step l disk0 = disk0).
  { induction l as [|s l IH]; intros disk0 Hl; [reflexivity|].
    simpl in Hl. apply andb_prop in Hl as [Hs Hl]. simpl.
    rewrite <- (IH disk0 Hl) at 2. f_equal.
    destruct s; try reflexivity; discriminate Hs. }
  destruct (spawn_failure w); [apply lookup_insert_eq|].
  rewrite (Hsame _ _ Hfiles). apply lookup_insert_eq.
Qed.

(** The launcher does the same whatever array it is given for [logs]. *)
Lemma launcher_ignores_logs (path : string) (buffer buffer' : list string) :
  executeInWorker w f path (spread defaultOptions options) buffer
  = executeInWorker w f path (spread defaultOptions options) buffer'.
Proof. reflexivity. Qed.

(** The [catch] clause answers with the [logs] array of [execute], which
    nothing ever fills. *)
Lemma rejection_answers_without_logs (x : thrown) (r : ExecutionResult) :
  stage_failure w = None ->
  promise unit = Rejected x ->
  answer (execute w f options) d = Fulfilled r ->
  logs r = [].
Proof.
  intros Hst Hp. unfold answer.
  rewrite (execute_rejected w f options d x Hst Hp). simpl.
  destruct (read_message x); [|discriminate]. now intros [= <-].
Qed.

End TempFile.

(** C6: the call [execute("console.log('A'); while(true){}", {timeout: 200})]
    returns its timeout failure while the temporary source file is still
    on the disk. *)
Theorem temp_file_outlives_timeout :
  (exists r,
      answer (CodeExecutor.execute late log_then_spin (within 200)) ∅
      = Fulfilled r /\
      success r = false /\
      error r = Some "Execution timeout after 200ms") /\
  disk_after (CodeExecutor.execute late log_then_spin (within 200)) ∅
    !! "/tmp/pendo-exec-00112233aabbccdd.mjs"
  = Some (CodeExecutor.wrapCode "console.log('A'); while(true){}").
Proof.
  split.
  - eexists. repeat split.
  - apply (temp_file_kept_after_rejection late log_then_spin (within 200) ∅
             (CodeExecutor.timeout_error
                (spread CodeExecutor.defaultOptions (within 200))));
      reflexivity.
Qed.

(** C7: in the same call the fragment has logged [A] before the deadline
    strikes, and the result comes back with no log line at all. *)
Theorem logs_lost_at_deadline :
  CodeExecutor.captured log_then_spin = ["A"] /\
  exists r,
    answer (CodeExecutor.execute late log_then_spin (within 200)) ∅
    = Fulfilled r /\
    success r = false /\
    logs r = [].
Proof. split; [reflexivity|]. eexists. repeat split. Qed.

(** * The output field *)

(** C9, as stated, fails: a fragment that returns nothing gets a result
    whose output field is set (it holds [null]), a fragment that returns
    a value at its top level gets no result at all, and the one way to a
    value in the field is a message that the fragment posts itself. *)
Lemma output_is_set_without_return :
  ends log_A_B = Completes /\
  (exists r,
      answer (CodeExecutor.execute calm log_A_B no_options) ∅ = Fulfilled r /\
      success r = true /\
      output r = Some JS.Null) /\
  ends log_then_return = Returns (JS.Num 5) /\
  answer (CodeExecutor.execute calm log_then_return no_options) ∅ = Pending /\
  ends post_an_output = Completes /\
  (exists r,
      answer (CodeExecutor.execute calm post_an_output no_options) ∅
      = Fulfilled r /\
      success r = true /\
      output r = Some (JS.Num 42)).
Proof.
  split; [reflexivity|]. split.
  { eexists. repeat split. }
  split; [reflexivity|]. split; [reflexivity|]. split; [reflexivity|].
  eexists. repeat split.
Qed.

(** C9 (amended): in a successful result the output field repeats the
    [output] of the message that settled the launch.  When the fragment
    has left the message channel of the unit alone, that message is the
    report of the generated program: the field is there, it holds [null],
    and the fragment ran off its end, so that no value returned by the
    fragment ever gets there (a fragment that returns at its top level
    leaves the generated program before the report is sent).  The weak
    sandbox never fills the field, whatever the fragment returns. *)
Theorem output_needs_an_explicit_return
  (w : world) (f : fragment) (options : ExecutionOptions) (d : disk)
  (r : ExecutionResult) :
  answer (CodeExecutor.execute w f options) d = Fulfilled r ->
  success r = true ->
  (exists m,
      stage_failure w = None /\
      CodeExecutor.promise
        (CodeExecutor.executeInWorker w f (CodeExecutor.tempFile w)
           (spread CodeExecutor.defaultOptions options) [])
      = Fulfilled (Report m) /\
      msg_success m = true /\
      output r = msg_output m) /\
  (leaves_channel f = true ->
   output r = Some JS.Null /\ ends f = Completes) /\
  (forall g weak, SimpleSandbox.execute w g = Fulfilled weak ->
                  output weak = None).
Proof.
  intros Hr Hs. split; [|split].
  - destruct (execute_results w f options d r Hr)
      as [[text ->]|(m & Hst & Hp & ->)]; [discriminate Hs|].
    simpl in Hs. exists m. repeat split; try assumption.
    simpl. now rewrite Hs.
  - intros Hchannel.
    destruct (execute_outcomes w f options d Hchannel)
      as [H|[(msg & H & _)|[(m & Hrep & H)|[(v & _ & H)|(n & _ & H)]]]];
      rewrite H in Hr; try discriminate; injection Hr as <-;
      try discriminate Hs.
    destruct (report_shapes w f m Hrep)
      as [[Hend ->]|(x & text & _ & _ & ->)]; [|discriminate Hs].
    split; [reflexivity | exact Hend].
  - intros g weak. unfold SimpleSandbox.execute.
    destruct (ends g) as [|x|v| | |code|x]; try discriminate;
      try (intros [= <-]; reflexivity).
    destruct (describe x); [|discriminate]. intros [= <-]. reflexivity.
Qed.

Lemma output_needs_an_explicit_return_witness :
  leaves_channel log_A_B = true /\
  exists r,
    answer (CodeExecutor.execute calm log_A_B no_options) ∅ = Fulfilled r /\
    success r = true /\
    output r = Some JS.Null /\
    ends log_A_B = Completes.
Proof.
  split; [reflexivity|].
  eexists. split; [reflexivity|]. split; [reflexivity|].
  match goal with
  | |- output ?r = _ /\ _ =>
      assert (Hr : answer (CodeExecutor.execute calm log_A_B no_options) ∅
                   = Fulfilled r) by reflexivity;
      destruct (output_needs_an_explicit_return calm log_A_B no_options ∅
                  r Hr eq_refl) as (_ & H & _)
  end.
  exact (H eq_refl).
Defined.

(** * Two tiers, two renderings *)





(** * More about [CodeExecutor.execute] *)

Section ExecuteMore.

Import CodeExecutor.

Variables (w : world) (f : fragment).

(** The launcher reads nothing of its options but [timeout]. *)
Lemma dispatch_reads_timeout (o o' : ExecutionOptions) (s : launch)
  (ev : event) :
  timeout o = timeout o' -> dispatch o s ev = dispatch o' s ev.
Proof.
  intros Ht. destruct ev as [m|x|code|]; try reflexivity.
  unfold dispatch, on_timer, timeout_error. now rewrite Ht.
Qed.

Lemma run_events_reads_timeout (o o' : ExecutionOptions)
  (evs : list event) (s : launch) :
  timeout o = timeout o' -> run_events o evs s = run_events o' evs s.
Proof.
  intros Ht. unfold run_events. revert s.
  induction evs as [|ev evs IH]; intros s; [reflexivity|].
  simpl. now rewrite (dispatch_reads_timeout o o' s ev Ht), IH.
Qed.

Lemma launch_reads_timeout (o o' : ExecutionOptions) (path : string)
  (buffer : list string) :
  timeout o = timeout o' ->
  executeInWorker w f path o buffer = executeInWorker w f path o' buffer.
Proof.
  intros Ht. unfold executeInWorker, delivered, launched.
  destruct (spawn_failure w); [reflexivity|].
  rewrite Ht. apply run_events_reads_timeout, Ht.
Qed.

Lemma execute_reads_timeout (o o' : ExecutionOptions) (d : disk) :
  timeout o = timeout o' -> execute w f o d = execute w f o' d.
Proof.
  intros Ht. unfold execute.
  assert (Hl : executeInWorker w f (tempFile w) (spread defaultOptions o) []
               = executeInWorker w f (tempFile w) (spread defaultOptions o') []).
  { apply launch_reads_timeout. simpl. now rewrite Ht. }
  now rewrite Hl.
Qed.

(** The content of [path] after the file operations among the steps. *)
Lemma file_steps_lookup (path : string) (l : list step) (d0 : disk)
  (acc : option (option string)) (base : option string) :
  d0 !! path = default base acc ->
  fold_left file_step l d0 !! path =
  default base
    (fold_left (fun acc s =>
                  match s with
                  | Writes p content =>
                      if decide (p = path) then Some (Some content) else acc
                  | Removes p => if decide (p = path) then Some None else acc
                  | Say _ | Post _ | Edit _ => acc
                  end) l acc).
Proof.
  revert d0 acc. induction l as [|s l IH]; intros d0 acc Hd; [exact Hd|].
  simpl. apply IH. destruct s as [c|m|change|p content|p]; simpl; try exact Hd.
  - case_decide as Hp.
    + subst p. simpl. apply lookup_insert_eq.
    + rewrite lookup_insert_ne by assumption. exact Hd.
  - case_decide as Hp.
    + subst p. simpl. apply lookup_delete_eq.
    + rewrite lookup_delete_ne by assumption. exact Hd.
Qed.

(** Away from its own temporary file, [execute] leaves the disk as the
    unit left it. *)
Lemma disk_after_elsewhere (options : ExecutionOptions) (d : disk)
  (path : string) :
  stage_failure w = None ->
  path <> tempFile w ->
  disk_after (execute w f options) d !! path =
  (worker_runs w f (<[tempFile w := wrapCode (source f)]> d)).2 !! path.
Proof.
  intros Hst Hne. unfold disk_after.
  destruct (promise (executeInWorker w f (tempFile w)
                       (spread defaultOptions options) []))
    as [|[n|m]|x] eqn:Hp.
  - now rewrite (execute_pending w f options d Hst Hp).
  - rewrite (execute_blank w f options d n Hst Hp).
    destruct (unlink_failure w); [reflexivity|]. simpl.
    now rewrite lookup_delete_ne by congruence.
  - rewrite (execute_fulfilled w f options d m Hst Hp).
    destruct (unlink_failure w); [reflexivity|]. simpl.
    now rewrite lookup_delete_ne by congruence.
  - now rewrite (execute_rejected w f options d x Hst Hp).
Qed.

End ExecuteMore.

(** X1: nothing confines the unit to [allowedPaths]: [execute] answers and
    leaves the disk in the same way whatever [maxMemory] and
    [allowedPaths] hold, and once the thread has started every file
    other than the temporary one is, after the call, what the last file
    operation of the fragment on it made of it, and what it was before
    when the fragment did not touch it. *)
Theorem allowed_paths_are_not_enforced
  (w : world) (f : fragment) (options : ExecutionOptions) (d : disk)
  (path : string) (memory : property Z) (paths : property (list string)) :
  stage_failure w = None ->
  spawn_failure w = None ->
  path <> CodeExecutor.tempFile w ->
  CodeExecutor.execute w f
    {| timeout := timeout options; maxMemory := memory;
       allowedPaths := paths |} d
  = CodeExecutor.execute w f options d /\
  disk_after (CodeExecutor.execute w f options) d !! path =
  match last_touch path (steps f) with
  | Some content => content
  | None => d !! path
  end.
Proof.
  intros Hst Hsp Hne. split.
  - now apply execute_reads_timeout.
  - rewrite (disk_after_elsewhere w f options d path Hst Hne).
    unfold CodeExecutor.worker_runs. rewrite Hsp. simpl.
    unfold last_touch.
    rewrite (file_steps_lookup path (steps f) _ None (d !! path)).
    + destruct (fold_left _ (steps f) None); reflexivity.
    + simpl. now rewrite lookup_insert_ne by congruence.
Qed.

Lemma allowed_paths_are_not_enforced_witness :
  "/etc/motd" <> CodeExecutor.tempFile calm /\
  disk_after
    (CodeExecutor.execute calm write_outside
       {| timeout := Missing; maxMemory := Missing;
          allowedPaths := Holds ["./cache"] |})
    {["/etc/motd" := "welcome"]} !! "/etc/motd" = Some "hello".
Proof.
  assert (Hne : "/etc/motd" <> CodeExecutor.tempFile calm) by discriminate.
  split; [exact Hne|].
  exact (proj2 (allowed_paths_are_not_enforced calm write_outside
                  {| timeout := Missing; maxMemory := Missing;
                     allowedPaths := Holds ["./cache"] |}
                  {["/etc/motd" := "welcome"]} "/etc/motd" Missing Missing
                  eq_refl eq_refl Hne)).
Defined.

(** X2: the [memoryUsed] of a result is the figure of the message that
    settled the launch, and 0 when that message has none or when the
    launch was rejected.  For a fragment that has left the message
    channel of the unit alone this means: every failure reports 0, and
    every success reports the heap difference measured in the unit. *)
Theorem stats_of_every_result
  (w : world) (f : fragment) (options : ExecutionOptions) (d : disk)
  (r : ExecutionResult) :
  answer (CodeExecutor.execute w f options) d = Fulfilled r ->
  (forall m,
      stage_failure w = None ->
      CodeExecutor.promise
        (CodeExecutor.executeInWorker w f (CodeExecutor.tempFile w)
           (spread CodeExecutor.defaultOptions options) [])
      = Fulfilled (Report m) ->
      memoryUsed (stats r) = default 0 (msg_memoryUsed m)) /\
  (forall x,
      CodeExecutor.promise
        (CodeExecutor.executeInWorker w f (CodeExecutor.tempFile w)
           (spread CodeExecutor.defaultOptions options) [])
      = Rejected x ->
      memoryUsed (stats r) = 0) /\
  (leaves_channel f = true ->
   (success r = false -> memoryUsed (stats r) = 0) /\
   (success r = true -> memoryUsed (stats r) = heap_delta w)).
Proof.
  intros Hr. split; [|split].
  - intros m Hst Hp. unfold answer in Hr.
    rewrite (execute_fulfilled w f options d m Hst Hp) in Hr.
    now injection Hr as <-.
  - intros x Hp.
    destruct (execute_results w f options d r Hr)
      as [[text ->]|(m & _ & Hm & _)]; [reflexivity|].
    rewrite Hm in Hp. discriminate.
  - intros Hchannel.
    destruct (execute_outcomes w f options d Hchannel)
      as [H|[(msg & H & _)|[(m & Hrep & H)|[(v & _ & H)|(n & _ & H)]]]];
      rewrite H in Hr; try discriminate; injection Hr as <-;
      try (split; [reflexivity | discriminate]).
    destruct (report_shapes w f m Hrep)
      as [[_ ->]|(x & text & _ & _ & ->)]; simpl;
      split; try reflexivity; discriminate.
Qed.

Lemma stats_of_every_result_witness :
  leaves_channel log_A_B = true /\
  exists r,
    answer (CodeExecutor.execute calm log_A_B no_options) ∅ = Fulfilled r /\
    memoryUsed (stats r) = 2048.
Proof.
  split; [reflexivity|].
  eexists. split; [reflexivity|].
  match goal with
  | |- memoryUsed (stats ?r) = _ =>
      assert (Hr : answer (CodeExecutor.execute calm log_A_B no_options) ∅
                   = Fulfilled r) by reflexivity;
      destruct (stats_of_every_result calm log_A_B no_options ∅ r Hr)
        as (_ & _ & Hm)
  end.
  exact (proj2 (Hm eq_refl) eq_refl).
Defined.

(** X3: a fragment that keeps the thread busy and sends nothing is
    answered exactly when a timer was set, with the timeout failure, and
    otherwise never.  A timer is set when the [timeout] left by
    [{...defaultOptions, ...options}] is truthy: it is for options
    without a [timeout], where the default of 30000 applies, and it is not
    for [timeout: 0] nor for a [timeout] that is there and holds
    [undefined], which the spread copies over the default. *)
Theorem hanging_fragment_needs_a_timer
  (w : world) (f : fragment) (options : ExecutionOptions) (d : disk) :
  stage_failure w = None ->
  spawn_failure w = None ->
  leaves_channel f = true ->
  ends f = Hangs ->
  answer (CodeExecutor.execute w f options) d =
  (if truthy (timeout (spread CodeExecutor.defaultOptions options))
   then Fulfilled
          (failure w
             (message
                (CodeExecutor.timeout_error
                   (spread CodeExecutor.defaultOptions options))))
   else Pending) /\
  (timeout options = Missing ->
   timeout (spread CodeExecutor.defaultOptions options) = Holds 30000) /\
  (timeout options = Void \/ timeout options = Holds 0 ->
   truthy (timeout (spread CodeExecutor.defaultOptions options)) = false).
Proof.
  intros Hst Hsp Hchannel Hend. split; [|split].
  - unfold answer. pose proof (busy_unit w f options Hsp Hchannel Hend) as Hp.
    destruct (truthy (timeout (spread CodeExecutor.defaultOptions options))).
    + now rewrite (execute_rejected_error w f options d _ Hst Hp).
    + now rewrite (execute_pending w f options d Hst Hp).
  - intros Ht. simpl. now rewrite Ht.
  - intros [Ht|Ht]; simpl; now rewrite Ht.
Qed.

Lemma hanging_fragment_needs_a_timer_witness :
  ends log_then_spin = Hangs /\
  leaves_channel log_then_spin = true /\
  answer (CodeExecutor.execute calm log_then_spin (within 0)) ∅ = Pending /\
  answer (CodeExecutor.execute calm log_then_spin
            {| timeout := Void; maxMemory := Missing;
               allowedPaths := Missing |}) ∅ = Pending /\
  answer (CodeExecutor.execute calm log_then_spin (within 200)) ∅
  = Fulfilled (failure calm "Execution timeout after 200ms").
Proof.
  split; [reflexivity|]. split; [reflexivity|]. split; [|split].
  - exact (proj1 (hanging_fragment_needs_a_timer calm log_then_spin
                    (within 0) ∅ eq_refl eq_refl eq_refl eq_refl)).
  - exact (proj1 (hanging_fragment_needs_a_timer calm log_then_spin
                    {| timeout := Void; maxMemory := Missing;
                       allowedPaths := Missing |} ∅
                    eq_refl eq_refl eq_refl eq_refl)).
  - exact (proj1 (hanging_fragment_needs_a_timer calm log_then_spin
                    (within 200) ∅ eq_refl eq_refl eq_refl eq_refl)).
Defined.



(** A thrown string has no message: the weak sandbox fails with a text
    that does not name it. *)
Lemma plain_throw_in_the_sandbox :
  SimpleSandbox.execute calm throw_plain
  = Fulfilled (caught calm (Some ("undefined" +:+ JS.newline +:+ "undefined"))).
Proof. reflexivity. Qed.



(** * What a fragment can do to the report *)

(** X27: the first message on the port of the unit settles the call.  A
    fragment that has not taken the unit over and posts a message itself
    gets that message back as its result, field by field, whatever it
    does afterwards and however it ends, and the temporary file is
    removed; when the first message is [null] or [undefined], the result
    is the failure of reading [success] from it. *)
Theorem first_message_settles_the_call
  (w : world) (f : fragment) (options : ExecutionOptions) (d : disk)
  (first : posted) (rest : list posted) :
  stage_failure w = None ->
  spawn_failure w = None ->
  winner w = UnitFirst ->
  takes_over f = None ->
  posts f = first :: rest ->
  answer (CodeExecutor.execute w f options) d =
  Fulfilled
    (match first with
     | Report m => relayed w m
     | Blank n => failure w (message (cannot_read (nullish_text n) "success"))
     end) /\
  (unlink_failure w = None ->
   disk_after (CodeExecutor.execute w f options) d
     !! CodeExecutor.tempFile w = None).
Proof.
  intros Hst Hsp Hwin Htake Hposts.
  assert (Hunit : CodeExecutor.promise
                    (CodeExecutor.executeInWorker w f
                       (CodeExecutor.tempFile w)
                       (spread CodeExecutor.defaultOptions options) [])
                  = Fulfilled first).
  { apply (unit_sends_first w f options first
             (map Sends rest ++ CodeExecutor.closing w f)%list Hsp Hwin).
    unfold CodeExecutor.emissions. now rewrite Htake, Hposts. }
  split.
  - unfold answer. destruct first as [n|m].
    + now rewrite (execute_blank w f options d n Hst Hunit).
    + now rewrite (execute_fulfilled w f options d m Hst Hunit).
  - intros Hun.
    exact (temp_file_removed_after_report w f options d first Hst Hun Hunit).
Qed.

Lemma first_message_settles_the_call_witness :
  posts post_then_throw = [Report (Message false None None None None)] /\
  answer (CodeExecutor.execute calm post_then_throw no_options) ∅
  = Fulfilled (relayed calm (Message false None None None None)).
Proof.
  split; [reflexivity|].
  exact (proj1 (first_message_settles_the_call calm post_then_throw
                  no_options ∅ _ [] eq_refl eq_refl eq_refl eq_refl
                  eq_refl)).
Defined.



(** * The handler of [execute_pendo_code] *)

Section Handler.

Import PendoCodeExecutionServer.

Variables (w : world) (call : tool_args) (f : fragment).
Variable d : disk.

Lemma timeout_or_default_truthy (t : option Z) :
  truthy (Holds (timeout_or_default t)) = true.
Proof.
  unfold timeout_or_default, truthy. destruct t as [n|]; [|reflexivity].
  destruct (n =? 0)%Z eqn:Hn; [reflexivity|]. now rewrite Hn.
Qed.

(** With code at hand, the handler turns the result of [execute] into a
    response and does nothing else. *)
Lemma handler_follows_execute :
  args_code call = Some f ->
  source f <> "" ->
  handleExecuteCode w (Some call) d =
  match CodeExecutor.execute w f (handler_options call) d with
  | (Fulfilled result, d') =>
      (Fulfilled
         (if success result
          then {| text := success_text result; isError := false |}
          else {| text := failure_text result; isError := true |}), d')
  | (Pending, d') => (Pending, d')
  | (Rejected x, d') => (Rejected x, d')
  end.
Proof.
  intros Hc Hs. unfold handleExecuteCode. rewrite Hc.
  case_decide; [contradiction|]. unfold bind.
  destruct (CodeExecutor.execute w f (handler_options call) d)
    as [[|result|x] d']; try reflexivity.
  destruct (success result); reflexivity.
Qed.


End Handler.

(** X6: the handler always sets a timer, since [timeout || 30000] is
    truthy whatever the caller sends (nothing, 0 or a number).  So a
    fragment that keeps the thread busy and sends nothing is always
    answered, by a response flagged as an error whose text names the
    timeout that was in force.  The timer does not help against a
    fragment that stalls: its thread exits with status 0, the exit
    handler cancels the timer and rejects nothing, and the handler never
    answers. *)
Theorem handler_answers_every_hang
  (w : world) (call : PendoCodeExecutionServer.tool_args) (f : fragment)
  (d : disk) :
  PendoCodeExecutionServer.args_code call = Some f ->
  source f <> "" ->
  stage_failure w = None ->
  spawn_failure w = None ->
  leaves_channel f = true ->
  (ends f = Hangs ->
   exists response,
     answer (PendoCodeExecutionServer.handleExecuteCode w (Some call)) d
     = Fulfilled response /\
     PendoCodeExecutionServer.isError response = true /\
     contains
       ("Execution timeout after " +:+
        pretty (PendoCodeExecutionServer.timeout_or_default
                  (PendoCodeExecutionServer.args_timeout call))
        +:+ "ms")
       (PendoCodeExecutionServer.text response)) /\
  (ends f = Stalls ->
   winner w = UnitFirst ->
   answer (PendoCodeExecutionServer.handleExecuteCode w (Some call)) d
   = Pending).
Proof.
  intros Hc Hs Hst Hsp Hchannel. split.
  - intros Hend.
    pose proof (busy_unit w f (PendoCodeExecutionServer.handler_options call)
                  Hsp Hchannel Hend) as Hp.
    change (timeout (spread CodeExecutor.defaultOptions
                       (PendoCodeExecutionServer.handler_options call)))
      with (Holds (PendoCodeExecutionServer.timeout_or_default
                     (PendoCodeExecutionServer.args_timeout call)))
      in Hp at 1.
    rewrite timeout_or_default_truthy in Hp.
    unfold answer. rewrite (handler_follows_execute w call f d Hc Hs).
    rewrite (execute_rejected_error w f _ d _ Hst Hp). simpl.
    eexists. split; [reflexivity|]. split; [reflexivity|]. simpl.
    unfold PendoCodeExecutionServer.failure_text. simpl.
    apply contains_app_r, contains_app_r. apply contains_app_l, contains_refl.
  - intros Hend Hwin.
    unfold answer. rewrite (handler_follows_execute w call f d Hc Hs).
    rewrite (execute_pending w f _ d Hst); [reflexivity|].
    apply (unit_leaves_quietly w f _ Hsp Hwin).
    rewrite (leaves_channel_emissions w f Hchannel).
    unfold CodeExecutor.closing, CodeExecutor.report. now rewrite Hend.
Qed.

Lemma handler_answers_every_hang_witness :
  source log_then_spin <> "" /\
  leaves_channel log_then_spin = true /\
  (exists response,
      answer (PendoCodeExecutionServer.handleExecuteCode calm
                (Some (PendoCodeExecutionServer.Args (Some log_then_spin)
                         (Some 0)))) ∅
      = Fulfilled response /\
      contains "Execution timeout after 30000ms"
        (PendoCodeExecutionServer.text response)) /\
  answer (PendoCodeExecutionServer.handleExecuteCode calm
            (Some (PendoCodeExecutionServer.Args (Some stalled) None))) ∅
  = Pending.
Proof.
  assert (Hs : source log_then_spin <> "") by discriminate.
  assert (Hs' : source stalled <> "") by discriminate.
  split; [exact Hs|]. split; [reflexivity|]. split.
  - destruct (proj1 (handler_answers_every_hang calm
                       (PendoCodeExecutionServer.Args (Some log_then_spin)
                          (Some 0))
                       log_then_spin ∅ eq_refl Hs eq_refl eq_refl eq_refl)
                eq_refl)
      as (response & Hr & _ & Hc).
    exists response. split; [exact Hr | exact Hc].
  - exact (proj2 (handler_answers_every_hang calm
                    (PendoCodeExecutionServer.Args (Some stalled) None)
                    stalled ∅ eq_refl Hs' eq_refl eq_refl eq_refl)
             eq_refl eq_refl).
Defined.



(** X8: when a fragment that deals with the generated program through
    the console alone throws an [Error] object, the response of the
    handler is flagged as an error and its text carries the message of
    the thrown error and every line the fragment had logged before, with
    the prefix of its channel. *)
Theorem handler_reports_thrown_error
  (w : world) (call : PendoCodeExecutionServer.tool_args) (f : fragment)
  (d : disk) (e : js_error) :
  PendoCodeExecutionServer.args_code call = Some f ->
  source f <> "" ->
  stage_failure w = None ->
  spawn_failure w = None ->
  winner w = UnitFirst ->
  leaves_channel f = true ->
  leaves_logs f = true ->
  ends f = Throws (ErrorObject e) ->
  exists response,
    answer (PendoCodeExecutionServer.handleExecuteCode w (Some call)) d
    = Fulfilled response /\
    PendoCodeExecutionServer.isError response = true /\
    contains (message e) (PendoCodeExecutionServer.text response) /\
    forall c, c ∈ calls f ->
      contains (channel_prefix (chan c) +:+ rendered_line (args c))
        (PendoCodeExecutionServer.text response).
Proof.
  intros Hc Hs Hst Hsp Hwin Hchannel Hlogs Hend.
  assert (Hrep : CodeExecutor.report (heap_delta w) f =
                 Some (Message false None (Some (CodeExecutor.captured f))
                         (Some (describe_error e)) None)).
  { unfold CodeExecutor.report.
    now rewrite Hend, (leaves_logs_in_catch f Hlogs). }
  pose proof (unit_reports w f
                (PendoCodeExecutionServer.handler_options call)
                _ Hsp Hwin Hchannel Hrep) as Hunit.
  unfold answer. rewrite (handler_follows_execute w call f d Hc Hs).
  rewrite (execute_fulfilled w f _ d _ Hst Hunit). simpl.
  eexists. split; [reflexivity|]. split; [reflexivity|]. simpl.
  unfold PendoCodeExecutionServer.failure_text. simpl. split.
  - apply contains_app_r, contains_app_r, contains_app_l.
    apply contains_front.
  - intros c Hin.
    do 7 apply contains_app_r. apply contains_app_l.
    apply contains_concat. rewrite (worker_captured f Hlogs).
    apply (list_elem_of_fmap_2
             (fun c => channel_prefix (chan c) +:+ rendered_line (args c))).
    exact Hin.
Qed.

Lemma handler_reports_thrown_error_witness :
  ends warn_then_throw = Throws (ErrorObject (Err "boom" None)) /\
  leaves_channel warn_then_throw = true /\
  leaves_logs warn_then_throw = true /\
  exists response,
    answer (PendoCodeExecutionServer.handleExecuteCode calm
              (Some (PendoCodeExecutionServer.Args (Some warn_then_throw)
                       None))) ∅
    = Fulfilled response /\
    PendoCodeExecutionServer.isError response = true /\
    contains "boom" (PendoCodeExecutionServer.text response) /\
    contains "WARN: careful" (PendoCodeExecutionServer.text response).
Proof.
  split; [reflexivity|]. split; [reflexivity|]. split; [reflexivity|].
  assert (Hs : source warn_then_throw <> "") by discriminate.
  destruct (handler_reports_thrown_error calm
              (PendoCodeExecutionServer.Args (Some warn_then_throw) None)
              warn_then_throw ∅ (Err "boom" None)
              eq_refl Hs eq_refl eq_refl eq_refl eq_refl eq_refl eq_refl)
    as (response & Hr & He & Hm & Hl).
  exists response. repeat split; try assumption.
  apply (Hl (Call Warn [JS.Str "careful"])). apply list_elem_of_here.
Defined.

(** * The rate limiter *)

Section Limiter.

Import RateLimiter.

Lemma granted_app (j1 j2 : list (string * Z * bool)) (key : string) :
  granted (j1 ++ j2) key = (granted j1 key ++ granted j2 key)%list.
Proof. unfold granted. now rewrite omap_app. Qed.

Lemma granted_one (k key : string) (now : Z) (answer : bool) :
  granted [(k, now, answer)] key =
  if answer && bool_decide (k = key) then [now] else [].
Proof. unfold granted. simpl. destruct (answer && bool_decide (k = key)); reflexivity. Qed.

Lemma checkLimit_answer (rl : t) (now : Z) (key : string) :
  (checkLimit rl now key).1 = true <->
  Z.of_nat (length (validTimestamps rl now key)) < limit rl.
Proof.
  unfold checkLimit. case_decide; simpl; split; intros; try lia; congruence.
Qed.

Lemma checkLimit_keeps_settings (rl : t) (now : Z) (key : string) :
  limit (checkLimit rl now key).2 = limit rl /\
  window (checkLimit rl now key).2 = window rl.
Proof. unfold checkLimit. case_decide; split; reflexivity. Qed.

Lemma timestamps_after_check (rl : t) (now : Z) (key other : string) :
  timestamps_of (checkLimit rl now key).2 other =
  if (checkLimit rl now key).1 && bool_decide (key = other)
  then (validTimestamps rl now key ++ [now])%list
  else timestamps_of rl other.
Proof.
  unfold checkLimit. case_decide; simpl; [reflexivity|].
  unfold timestamps_of at 1. simpl. case_bool_decide as Hk.
  - subst. now rewrite lookup_insert_eq.
  - now rewrite lookup_insert_ne.
Qed.

Lemma serve_keeps_settings (calls : list (string * Z)) (rl : t) :
  limit (serve rl calls).2 = limit rl /\ window (serve rl calls).2 = window rl.
Proof.
  revert rl. induction calls as [|[key now] calls IH]; intros rl; [now split|].
  simpl. destruct (checkLimit rl now key) as [answer rl'] eqn:Hc.
  specialize (IH rl'). destruct (serve rl' calls) as [journal rl''].
  simpl in *. pose proof (checkLimit_keeps_settings rl now key) as Hk.
  rewrite Hc in Hk. simpl in Hk. destruct IH, Hk. split; congruence.
Qed.

Lemma check_within_limit (rl : t) (now : Z) (key : string) :
  within_limit rl -> within_limit (checkLimit rl now key).2.
Proof.
  intros Hrl other. rewrite timestamps_after_check.
  destruct (checkLimit_keeps_settings rl now key) as [-> _].
  destruct ((checkLimit rl now key).1) eqn:Hans; simpl; [|apply Hrl].
  case_bool_decide; [|apply Hrl].
  apply checkLimit_answer in Hans. rewrite length_app. simpl. lia.
Qed.

Lemma serve_within_limit (calls : list (string * Z)) (rl : t) :
  within_limit rl -> within_limit (serve rl calls).2.
Proof.
  revert rl. induction calls as [|[key now] calls IH]; intros rl Hrl;
    [assumption|].
  simpl. pose proof (check_within_limit rl now key Hrl) as Hstep.
  destruct (checkLimit rl now key) as [answer rl'].
  specialize (IH rl' Hstep). now destruct (serve rl' calls).
Qed.

Lemma create_within_limit (limit windowMs : Z) :
  within_limit (create limit windowMs).
Proof. intros key. unfold timestamps_of. simpl. rewrite lookup_empty. simpl. lia. Qed.

End Limiter.

(** X9: starting from a new limiter and whatever the calls to
    [checkLimit] and the readings of the clock, no key ever holds more
    timestamps than the limit: the memory taken by one key is bounded. *)
Theorem stored_timestamps_never_exceed_limit
  (limit windowMs : Z) (calls : list (string * Z)) (key : string) :
  Z.of_nat
    (length
       (RateLimiter.timestamps_of
          (RateLimiter.serve (RateLimiter.create limit windowMs) calls).2 key))
  <= Z.max 0 limit.
Proof.
  pose proof (serve_within_limit calls _
                (create_within_limit limit windowMs) key) as H.
  destruct (serve_keeps_settings calls (RateLimiter.create limit windowMs))
    as [Hl _].
  rewrite Hl in H. exact H.
Qed.

Section LimiterWindow.

Import RateLimiter.

Lemma valid_after_grant (rl : t) (now later : Z) (key : string) :
  now <= later ->
  filter (fun ts => later - ts < window rl) (validTimestamps rl now key)
  = validTimestamps rl later key.
Proof.
  intros Hle. unfold validTimestamps. apply list_filter_filter_l.
  intros ts. lia.
Qed.

Lemma create_remembers (limit windowMs last : Z) :
  remembers (create limit windowMs) [] last.
Proof.
  intros key now _. unfold validTimestamps, timestamps_of, grants_in_window.
  simpl. now rewrite lookup_empty.
Qed.

(** One call keeps the limiter in step with the journal. *)
Lemma check_remembers (rl : t) (journal : list (string * Z * bool))
  (last now : Z) (key : string) :
  remembers rl journal last ->
  last <= now ->
  remembers (checkLimit rl now key).2
    (journal ++ [(key, now, (checkLimit rl now key).1)]) now.
Proof.
  intros Hrem Hle other later Hlater.
  unfold grants_in_window. rewrite granted_app, granted_one, filter_app.
  destruct (checkLimit_keeps_settings rl now key) as [_ Hw]. rewrite Hw.
  unfold validTimestamps at 1. rewrite timestamps_after_check, Hw.
  destruct ((checkLimit rl now key).1 && bool_decide (key = other)) eqn:Hg.
  - apply andb_true_iff in Hg as [_ Hk]. apply bool_decide_eq_true in Hk.
    subst other. rewrite filter_app. f_equal.
    rewrite valid_after_grant by assumption.
    apply Hrem. lia.
  - rewrite filter_nil, app_nil_r. apply Hrem. lia.
Qed.

Lemma serve_window (calls : list (string * Z)) :
  forall (rl : t) (journal : list (string * Z * bool)) (last : Z),
    remembers rl journal last ->
    clock_advances last calls ->
    forall before key now after,
      (serve rl calls).1 = (before ++ (key, now, true) :: after)%list ->
      Z.of_nat
        (length
           (grants_in_window (window rl) now
              (journal ++ before ++ [(key, now, true)]) key))
      <= limit rl.
Proof.
  induction calls as [|[k t] calls IH];
    intros rl journal last Hrem Hclock before key now after Hj.
  - simpl in Hj. now destruct before.
  - simpl in Hj, Hclock. destruct Hclock as [Hle Hclock].
    pose proof (check_remembers rl journal last t k Hrem Hle) as Hstep.
    pose proof (checkLimit_keeps_settings rl t k) as [Hl Hw].
    pose proof (checkLimit_answer rl t k) as Hans.
    destruct (checkLimit rl t k) as [answer rl'] eqn:Hc. simpl in *.
    specialize (IH rl' (journal ++ [(k, t, answer)])%list t Hstep Hclock).
    destruct (serve rl' calls) as [rest rl'']. simpl in *.
    destruct before as [|entry before]; simpl in Hj.
    + injection Hj as -> -> -> _.
      unfold grants_in_window. rewrite app_nil_l.
      rewrite granted_app, granted_one, filter_app, length_app. simpl.
      rewrite bool_decide_eq_true_2 by reflexivity.
      pose proof (Hrem key now Hle) as Hv. unfold grants_in_window in Hv.
      rewrite <- Hv.
      pose proof (length_filter (fun ts => now - ts < window rl) [now]).
      simpl in *. apply proj1 in Hans. specialize (Hans eq_refl). lia.
    + injection Hj as <- Hrest.
      specialize (IH before key now after Hrest).
      rewrite Hl, Hw in IH. rewrite <- app_assoc in IH. exact IH.
Qed.

End LimiterWindow.

(** X10: the sliding window holds.  Take a new limiter and any run of
    calls to [checkLimit] during which the clock never goes backwards.
    At every call that is granted, the grants given to that key inside
    the window that ends at that call, this one included, are at most
    [limit]. *)
Theorem sliding_window_is_respected
  (limit windowMs start : Z) (calls : list (string * Z))
  (before after : list (string * Z * bool)) (key : string) (now : Z) :
  RateLimiter.clock_advances start calls ->
  (RateLimiter.serve (RateLimiter.create limit windowMs) calls).1
  = (before ++ (key, now, true) :: after)%list ->
  Z.of_nat
    (length
       (grants_in_window windowMs now (before ++ [(key, now, true)]) key))
  <= limit.
Proof.
  intros Hclock Hj.
  exact (serve_window calls (RateLimiter.create limit windowMs) [] start
           (create_remembers limit windowMs start) Hclock
           before key now after Hj).
Qed.

Lemma sliding_window_is_respected_witness :
  RateLimiter.clock_advances 0
    [("a", 0); ("a", 10); ("a", 20); ("b", 20); ("a", 100); ("a", 105);
     ("a", 110)] /\
  Z.of_nat
    (length
       (grants_in_window 100 110
          ([("a", 0, true); ("a", 10, true); ("a", 20, false);
            ("b", 20, true); ("a", 100, true); ("a", 105, false)]
           ++ [("a", 110, true)]) "a"))
  <= 2.
Proof.
  assert (Hclock : RateLimiter.clock_advances 0
            [("a", 0); ("a", 10); ("a", 20); ("b", 20); ("a", 100);
             ("a", 105); ("a", 110)]).
  { simpl. repeat split; lia. }
  split; [exact Hclock|].
  exact (sliding_window_is_respected 2 100 0 _
           [("a", 0, true); ("a", 10, true); ("a", 20, false);
            ("b", 20, true); ("a", 100, true); ("a", 105, false)]
           [] "a" 110 Hclock eq_refl).
Defined.

(** X11: [getRemaining] tells the answer of the next [checkLimit]: it is
    positive exactly when a call at the same instant would be granted, and
    (for a window that is not empty) a granted call lowers it by exactly
    one, while a refused call leaves the limiter as it was. *)
Theorem remaining_tells_the_next_answer
  (rl : RateLimiter.t) (now : Z) (key : string) :
  (0 < RateLimiter.getRemaining rl now key <->
   (RateLimiter.checkLimit rl now key).1 = true) /\
  ((RateLimiter.checkLimit rl now key).1 = true ->
   0 < RateLimiter.window rl ->
   RateLimiter.getRemaining (RateLimiter.checkLimit rl now key).2 now key
   = RateLimiter.getRemaining rl now key - 1) /\
  ((RateLimiter.checkLimit rl now key).1 = false ->
   (RateLimiter.checkLimit rl now key).2 = rl).
Proof.
  split; [|split].
  - rewrite checkLimit_answer. unfold RateLimiter.getRemaining. lia.
  - intros Hg Hw. pose proof (proj1 (checkLimit_answer rl now key) Hg) as Hlt.
    unfold RateLimiter.getRemaining.
    destruct (checkLimit_keeps_settings rl now key) as [-> Hwin].
    unfold RateLimiter.validTimestamps at 1.
    rewrite timestamps_after_check, Hg, bool_decide_eq_true_2 by reflexivity.
    simpl. rewrite Hwin, filter_app, length_app.
    rewrite (valid_after_grant rl now now key) by lia.
    rewrite filter_cons_True by lia. simpl. lia.
  - unfold RateLimiter.checkLimit. case_decide; [reflexivity | discriminate].
Qed.

Lemma remaining_tells_the_next_answer_witness :
  RateLimiter.getRemaining
    (RateLimiter.checkLimit (RateLimiter.create 2 100) 5 "a").2 5 "a" = 1.
Proof.
  rewrite (proj1 (proj2 (remaining_tells_the_next_answer
                           (RateLimiter.create 2 100) 5 "a"))
             eq_refl eq_refl).
  reflexivity.
Defined.

Section LimiterReset.

Import RateLimiter.

Lemma minimum_le (x : Z) (xs : list Z) (y : Z) :
  y ∈ x :: xs -> minimum x xs <= y.
Proof.
  unfold minimum. revert y. induction xs as [|a xs IH]; intros y Hin.
  - apply elem_of_cons in Hin as [->|Hin]; [simpl; lia|].
    now apply elem_of_nil in Hin.
  - simpl. apply elem_of_cons in Hin as [->|Hin].
    + specialize (IH x (list_elem_of_here _ _)). lia.
    + apply elem_of_cons in Hin as [->|Hin]; [lia|].
      specialize (IH y (list_elem_of_further _ _ _ Hin)). lia.
Qed.

Lemma minimum_elem (x : Z) (xs : list Z) : minimum x xs ∈ x :: xs.
Proof.
  unfold minimum. induction xs as [|a xs IH]; simpl.
  - apply list_elem_of_here.
  - destruct (Z.min_spec a (foldr Z.min x xs)) as [[_ ->]|[_ ->]].
    + apply list_elem_of_further, list_elem_of_here.
    + apply elem_of_cons in IH as [->|IH].
      * apply list_elem_of_here.
      * now do 2 apply list_elem_of_further.
Qed.

Lemma filter_length_mono {A} (P Q : A -> Prop)
  `{forall x, Decision (P x)} `{forall x, Decision (Q x)} (l : list A) :
  (forall x, x ∈ l -> P x -> Q x) ->
  (length (filter P l) <= length (filter Q l))%nat.
Proof.
  induction l as [|a l IH]; intros Himp; [reflexivity|].
  assert (IH' : (length (filter P l) <= length (filter Q l))%nat).
  { apply IH. intros x Hx. apply Himp. now apply list_elem_of_further. }
  rewrite !filter_cons.
  destruct (decide (P a)) as [Hp|Hp]; destruct (decide (Q a)) as [Hq|Hq];
    simpl; try lia.
  exfalso. apply Hq, Himp; [apply list_elem_of_here | assumption].
Qed.

End LimiterReset.

(** X12: [getResetTime] is exactly the time to wait.  For a limiter
    within its limit and a limit of at least one, when [checkLimit]
    refuses a key at [now], the reset time [r] for that key is positive,
    every call made before [now + r] is refused as well, and the call made
    at [now + r] is granted. *)
Theorem reset_time_is_the_time_to_wait
  (rl : RateLimiter.t) (now : Z) (key : string) :
  within_limit rl ->
  1 <= RateLimiter.limit rl ->
  (RateLimiter.checkLimit rl now key).1 = false ->
  0 < RateLimiter.getResetTime rl now key /\
  (forall t, now <= t < now + RateLimiter.getResetTime rl now key ->
             (RateLimiter.checkLimit rl t key).1 = false) /\
  (RateLimiter.checkLimit rl (now + RateLimiter.getResetTime rl now key) key).1
  = true.
Proof.
  intros Hin Hlim Hden.
  assert (Hfull : RateLimiter.limit rl
                  <= Z.of_nat (length (RateLimiter.validTimestamps rl now key))).
  { destruct (Z_lt_le_dec
                (Z.of_nat (length (RateLimiter.validTimestamps rl now key)))
                (RateLimiter.limit rl)) as [Hlt|Hle]; [|exact Hle].
    apply checkLimit_answer in Hlt. congruence. }
  unfold RateLimiter.getResetTime.
  destruct (RateLimiter.validTimestamps rl now key) as [|ts rest] eqn:Hv;
    [simpl in Hfull; lia|].
  pose proof (minimum_elem ts rest) as Hmin_in.
  pose proof (minimum_le ts rest) as Hmin_le.
  set (oldest := RateLimiter.minimum ts rest) in *.
  assert (Hold : now - oldest < RateLimiter.window rl /\
                 oldest ∈ RateLimiter.timestamps_of rl key).
  { rewrite <- Hv in Hmin_in. unfold RateLimiter.validTimestamps in Hmin_in.
    now apply list_elem_of_filter in Hmin_in. }
  destruct Hold as [Hold Hstored]. cbv zeta.
  replace (Z.max 0 (oldest + RateLimiter.window rl - now))
    with (oldest + RateLimiter.window rl - now) by lia.
  split; [lia|]. split.
  - intros t Ht.
    destruct (RateLimiter.checkLimit rl t key).1 eqn:Hans; [|reflexivity].
    apply checkLimit_answer in Hans. exfalso.
    assert (Hmono : (length (RateLimiter.validTimestamps rl now key)
                     <= length (RateLimiter.validTimestamps rl t key))%nat).
    { unfold RateLimiter.validTimestamps. apply filter_length_mono.
      intros x Hx Hvalid.
      assert (Hxv : x ∈ ts :: rest).
      { rewrite <- Hv. unfold RateLimiter.validTimestamps.
        apply list_elem_of_filter. split; assumption. }
      specialize (Hmin_le x Hxv). lia. }
    rewrite Hv in Hmono. lia.
  - apply checkLimit_answer.
    replace (now + (oldest + RateLimiter.window rl - now))
      with (oldest + RateLimiter.window rl) by lia.
    unfold RateLimiter.validTimestamps.
    pose proof (length_filter_lt
                  (fun x => oldest + RateLimiter.window rl - x
                            < RateLimiter.window rl)
                  (RateLimiter.timestamps_of rl key) oldest Hstored) as Hlt.
    specialize (Hin key).
    assert (Hnot : ~ oldest + RateLimiter.window rl - oldest
                     < RateLimiter.window rl) by lia.
    specialize (Hlt Hnot). lia.
Qed.

Lemma reset_time_is_the_time_to_wait_witness :
  RateLimiter.getResetTime
    (RateLimiter.serve (RateLimiter.create 2 100) [("a", 0); ("a", 10)]).2
    20 "a" = 80 /\
  (RateLimiter.checkLimit
     (RateLimiter.serve (RateLimiter.create 2 100) [("a", 0); ("a", 10)]).2
     (20 + RateLimiter.getResetTime
             (RateLimiter.serve (RateLimiter.create 2 100)
                [("a", 0); ("a", 10)]).2 20 "a") "a").1 = true.
Proof.
  split; [reflexivity|].
  assert (Hin : within_limit
                  (RateLimiter.serve (RateLimiter.create 2 100)
                     [("a", 0); ("a", 10)]).2)
    by (apply serve_within_limit, create_within_limit).
  assert (Hlim : 1 <= RateLimiter.limit
                        (RateLimiter.serve (RateLimiter.create 2 100)
                           [("a", 0); ("a", 10)]).2)
    by (rewrite (proj1 (serve_keeps_settings _ _)); simpl; lia).
  exact (proj2 (proj2 (reset_time_is_the_time_to_wait _ 20 "a" Hin Hlim
                         eq_refl))).
Defined.

(** X13: keys do not interfere, and [clear] forgets one key only.  A call
    to [checkLimit] for one key leaves the timestamps of every other key
    untouched; after [clear(key)] the key has its full allowance again
    and no reset time, and the other keys keep their timestamps; after
    [clearAll] every key has its full allowance. *)
Theorem keys_are_kept_apart
  (rl : RateLimiter.t) (now : Z) (key other : string) :
  key <> other ->
  RateLimiter.timestamps_of (RateLimiter.checkLimit rl now key).2 other
  = RateLimiter.timestamps_of rl other /\
  RateLimiter.timestamps_of (RateLimiter.clear rl key) other
  = RateLimiter.timestamps_of rl other /\
  RateLimiter.getRemaining (RateLimiter.clear rl key) now key
  = Z.max 0 (RateLimiter.limit rl) /\
  RateLimiter.getResetTime (RateLimiter.clear rl key) now key = 0 /\
  RateLimiter.getRemaining (RateLimiter.clearAll rl) now other
  = Z.max 0 (RateLimiter.limit rl).
Proof.
  intros Hne. repeat split.
  - rewrite timestamps_after_check.
    rewrite (bool_decide_eq_false_2 _ Hne), andb_false_r. reflexivity.
  - unfold RateLimiter.timestamps_of, RateLimiter.clear. simpl.
    now rewrite lookup_delete_ne.
  - unfold RateLimiter.getRemaining, RateLimiter.validTimestamps,
      RateLimiter.timestamps_of, RateLimiter.clear. simpl.
    rewrite lookup_delete_eq. simpl. lia.
  - unfold RateLimiter.getResetTime, RateLimiter.validTimestamps,
      RateLimiter.timestamps_of, RateLimiter.clear. simpl.
    now rewrite lookup_delete_eq.
  - unfold RateLimiter.getRemaining, RateLimiter.validTimestamps,
      RateLimiter.timestamps_of, RateLimiter.clearAll. simpl.
    rewrite lookup_empty. simpl. lia.
Qed.

Lemma keys_are_kept_apart_witness :
  "a" <> "b" /\
  RateLimiter.timestamps_of
    (RateLimiter.checkLimit
       (RateLimiter.serve (RateLimiter.create 2 100) [("b", 1)]).2 5 "a").2
    "b" = [1].
Proof.
  assert (Hne : "a" <> "b") by discriminate.
  split; [exact Hne|].
  rewrite (proj1 (keys_are_kept_apart
                    (RateLimiter.serve (RateLimiter.create 2 100)
                       [("b", 1)]).2 5 "a" "b" Hne)).
  reflexivity.
Defined.

(** * Batches of identifiers *)

Section Batches.

Import ParallelQueries.

Context {A : Type}.

Variable itemIds : list A.

Lemma slice_inside (i size : Z) :
  0 <= i < Z.of_nat (length itemIds) ->
  0 < size ->
  slice itemIds i (i + size) =
  take (Z.to_nat (Z.min (i + size) (Z.of_nat (length itemIds)) - i))
       (drop (Z.to_nat i) itemIds).
Proof.
  intros Hi Hs. unfold slice.
  rewrite (proj2 (Z.ltb_ge i 0)) by lia.
  rewrite (proj2 (Z.ltb_ge (i + size) 0)) by lia.
  rewrite (Z.min_l i) by lia. reflexivity.
Qed.

(** The loop, as long as it has turns left, ends with batches that put
    together give the list back, none of them empty or longer than the
    batch size. *)
Lemma split_loop_covers (size : Z) :
  0 < size ->
  forall (fuel : nat) (i : Z) (batches : list (list A)),
    0 <= i ->
    (Z.to_nat (Z.of_nat (length itemIds) - i) <= fuel)%nat ->
    concat batches = take (Z.to_nat i) itemIds ->
    Forall (fun b => (0 < length b)%nat /\ Z.of_nat (length b) <= size)
           batches ->
    exists result,
      split_loop fuel itemIds size i batches = Some result /\
      concat result = itemIds /\
      Forall (fun b => (0 < length b)%nat /\ Z.of_nat (length b) <= size)
             result.
Proof.
  intros Hs. induction fuel as [|fuel IH]; intros i batches Hi Hfuel Hcat Hall.
  - simpl. case_decide as Hlt; [lia|]. exists batches.
    split; [reflexivity|]. split; [|assumption].
    rewrite Hcat. apply take_ge. lia.
  - simpl. case_decide as Hlt.
    + apply IH; [lia | lia | |].
      * rewrite concat_app, Hcat. simpl. rewrite app_nil_r.
        rewrite slice_inside by lia. rewrite take_take_drop.
        destruct (Z_le_gt_dec (i + size) (Z.of_nat (length itemIds))).
        -- rewrite Z.min_l by lia. f_equal. lia.
        -- rewrite Z.min_r by lia. rewrite !take_ge by lia. reflexivity.
      * apply Forall_app. split; [assumption|]. constructor; [|constructor].
        rewrite slice_inside by lia. rewrite length_take, length_drop. lia.
    + exists batches. split; [reflexivity|]. split; [|assumption].
      rewrite Hcat. apply take_ge. lia.
Qed.

(** With a negative step the counter only moves away from the end. *)
Lemma split_loop_runs_on (size : Z) :
  size < 0 ->
  forall (fuel : nat) (i : Z) (batches : list (list A)),
    i < Z.of_nat (length itemIds) ->
    split_loop fuel itemIds size i batches = None.
Proof.
  intros Hs. induction fuel as [|fuel IH]; intros i batches Hi; simpl;
    (case_decide; [|lia]); [reflexivity|].
  apply IH. lia.
Qed.

End Batches.

(** X14: for a batch size that is positive after the default
    ([batchSize || 10], so also when it is left out or 0), the loop of
    [batchActivityQuery] ends within as many turns as there are
    identifiers, and its batches, put together in order, are exactly the
    identifiers: none is lost, repeated or moved; no batch is empty and
    none is longer than the batch size. *)
Theorem batches_cover_the_items
  {A : Type} (itemIds : list A) (size : option Z) (fuel : nat) :
  0 < ParallelQueries.batchSize_or_default size ->
  (length itemIds <= fuel)%nat ->
  exists batches,
    ParallelQueries.split fuel itemIds size = Some batches /\
    concat batches = itemIds /\
    Forall (fun b => (0 < length b)%nat /\
                     Z.of_nat (length b)
                     <= ParallelQueries.batchSize_or_default size) batches.
Proof.
  intros Hs Hfuel. unfold ParallelQueries.split.
  apply split_loop_covers; try assumption; try lia; try reflexivity.
  constructor.
Qed.

Lemma batches_cover_the_items_witness :
  ParallelQueries.split 7 ["p1"; "p2"; "p3"; "p4"; "p5"; "p6"; "p7"] (Some 3)
  = Some [["p1"; "p2"; "p3"]; ["p4"; "p5"; "p6"]; ["p7"]] /\
  exists batches,
    ParallelQueries.split 7 ["p1"; "p2"; "p3"; "p4"; "p5"; "p6"; "p7"]
      (Some 3) = Some batches /\
    concat batches = ["p1"; "p2"; "p3"; "p4"; "p5"; "p6"; "p7"].
Proof.
  split; [reflexivity|].
  destruct (batches_cover_the_items
              ["p1"; "p2"; "p3"; "p4"; "p5"; "p6"; "p7"] (Some 3) 7
              eq_refl (le_n 7)) as (batches & Hb & Hc & _).
  exists batches. split; assumption.
Defined.

(** X15: with a negative batch size and at least one identifier the loop
    of [batchActivityQuery] never ends: however many turns it is given, it
    is still running. *)
Theorem negative_batch_size_never_ends
  {A : Type} (itemIds : list A) (size : Z) (fuel : nat) :
  size < 0 ->
  itemIds <> [] ->
  ParallelQueries.split fuel itemIds (Some size) = None /\
  forall activityQuery : list A -> option (list A),
    ParallelQueries.batchActivityQuery fuel activityQuery itemIds (Some size)
    = None.
Proof.
  intros Hs Hne.
  assert (H : ParallelQueries.split fuel itemIds (Some size) = None).
  { unfold ParallelQueries.split, ParallelQueries.batchSize_or_default.
    rewrite (proj2 (Z.eqb_neq size 0)) by lia.
    apply split_loop_runs_on; [assumption|].
    destruct itemIds; [contradiction | simpl; lia]. }
  split; [exact H|]. intros q.
  unfold ParallelQueries.batchActivityQuery. now rewrite H.
Qed.

Lemma negative_batch_size_never_ends_witness :
  ParallelQueries.split 1000 ["p1"; "p2"] (Some (-5)) = None.
Proof.
  assert (Hne : ["p1"; "p2"] <> []) by discriminate.
  exact (proj1 (negative_batch_size_never_ends ["p1"; "p2"] (-5) 1000
                  eq_refl Hne)).
Defined.

(** X16: batching is invisible when the queried service answers a list of
    identifiers with the rows of each of them in turn (the rows for two
    lists put together are the rows for the first followed by the rows
    for the second): [batchActivityQuery] then returns the very rows of a
    single query for all the identifiers, whatever the positive batch
    size. *)
Theorem batching_is_invisible
  {A R : Type} (activityQuery : list A -> option (list R))
  (itemIds : list A) (size : option Z) (fuel : nat) :
  (forall a b,
      default [] (activityQuery (a ++ b)%list)
      = (default [] (activityQuery a) ++ default [] (activityQuery b))%list) ->
  0 < ParallelQueries.batchSize_or_default size ->
  (length itemIds <= fuel)%nat ->
  ParallelQueries.batchActivityQuery fuel activityQuery itemIds size
  = Some (default [] (activityQuery itemIds)).
Proof.
  intros Hadd Hs Hfuel.
  destruct (split_loop_covers itemIds
              (ParallelQueries.batchSize_or_default size) Hs fuel 0 []
              (Z.le_refl 0) ltac:(lia) eq_refl ltac:(constructor))
    as (batches & Hb & Hc & _).
  fold (ParallelQueries.split fuel itemIds size) in Hb.
  unfold ParallelQueries.batchActivityQuery. rewrite Hb. f_equal.
  rewrite <- Hc. clear Hb Hc.
  assert (Hnil : default [] (activityQuery []) = []).
  { specialize (Hadd [] []). simpl in Hadd.
    apply (f_equal (@length R)) in Hadd. rewrite length_app in Hadd.
    destruct (default [] (activityQuery [])); [reflexivity|simpl in Hadd; lia]. }
  unfold ParallelQueries.merge_rows.
  induction batches as [|b batches IH]; simpl; [now rewrite Hnil|].
  now rewrite Hadd, IH.
Qed.

Lemma batching_is_invisible_witness :
  ParallelQueries.batchActivityQuery 5
    (fun ids : list string => Some (map (fun id => (id, 1)) ids))
    ["p1"; "p2"; "p3"; "p4"; "p5"] (Some 2)
  = Some [("p1", 1); ("p2", 1); ("p3", 1); ("p4", 1); ("p5", 1)].
Proof.
  apply (batching_is_invisible
           (fun ids : list string => Some (map (fun id => (id, 1)) ids))
           ["p1"; "p2"; "p3"; "p4"; "p5"] (Some 2) 5).
  - intros a b. simpl. apply map_app.
  - reflexivity.
  - apply le_n.
Defined.

(** * The file cache *)

Section Cache.

Import QueryCache.

Variable sha256_hex : string -> string.
Variable JSON_parse : string -> option JS.value.

Lemma list_of_append (a b : string) :
  String.list_ascii_of_string (a +:+ b)
  = (String.list_ascii_of_string a ++ String.list_ascii_of_string b)%list.
Proof.
  induction a as [|x a IH]; [reflexivity|].
  change (String x a +:+ b) with (String x (a +:+ b)). simpl. now rewrite IH.
Qed.

Lemma cacheFile_is_json (key : string) :
  endsWith (cacheFile sha256_hex key) ".json" = true.
Proof.
  unfold endsWith, cacheFile. apply bool_decide_eq_true.
  rewrite list_of_append. now apply suffix_app_r.
Qed.

Lemma get_miss (c : t) (now : Z) (key : string) (files : gmap string file) :
  files !! cacheFile sha256_hex key = None ->
  get sha256_hex JSON_parse c now key (Some files) = (JS.Null, Some files).
Proof. intros H. unfold get. now rewrite H. Qed.

Lemma get_fresh (c : t) (now : Z) (key : string) (files : gmap string file)
  (stats : file) :
  files !! cacheFile sha256_hex key = Some stats ->
  now - mtimeMs stats <= ttl c ->
  get sha256_hex JSON_parse c now key (Some files)
  = (default JS.Null (JSON_parse (content stats)), Some files).
Proof.
  intros H Hage. unfold get. rewrite H. cbv zeta.
  case_decide; [lia|]. now destruct (JSON_parse (content stats)).
Qed.

Lemma get_expired (c : t) (now : Z) (key : string) (files : gmap string file)
  (stats : file) :
  files !! cacheFile sha256_hex key = Some stats ->
  ttl c < now - mtimeMs stats ->
  get sha256_hex JSON_parse c now key (Some files)
  = (JS.Null, Some (delete (cacheFile sha256_hex key) files)).
Proof.
  intros H Hage. unfold get. rewrite H. cbv zeta.
  case_decide; [reflexivity | lia].
Qed.

End Cache.

(** X17: what [set] stores, [get] gives back until the entry is older than
    the time to live: for a value that has a JSON text, a [get] of the
    same key made no more than [ttl] after the [set] (the instant
    [ttl] later included) returns the parse of that text, [null] if it
    does not parse, and changes nothing. *)
Theorem fresh_entry_is_served
  (sha256_hex : string -> string) (JSON_parse : string -> option JS.value)
  (c : QueryCache.t) (stored now : Z) (key : string) (value : JS.value)
  (text : string) (dir : QueryCache.directory) :
  JS.JSON_stringify value = Some text ->
  now - stored <= QueryCache.ttl c ->
  (QueryCache.set sha256_hex c stored key value dir).1 = Fulfilled tt /\
  QueryCache.get sha256_hex JSON_parse c now key
    (QueryCache.set sha256_hex c stored key value dir).2
  = (default JS.Null (JSON_parse text),
     (QueryCache.set sha256_hex c stored key value dir).2).
Proof.
  intros Htext Hage. unfold QueryCache.set. rewrite Htext. cbn [fst snd].
  split; [reflexivity|].
  rewrite (get_fresh sha256_hex JSON_parse c now key _
             (QueryCache.File text stored)); [reflexivity | | exact Hage].
  apply lookup_insert_eq.
Qed.

Lemma fresh_entry_is_served_witness :
  QueryCache.get (fun key => key)
    (fun s => if decide (s = "42") then Some (JS.Num 42) else None)
    (QueryCache.create None None) 3600100 "answer"
    (QueryCache.set (fun key => key) (QueryCache.create None None) 100
       "answer" (JS.Num 42) None).2
  = (JS.Num 42,
     (QueryCache.set (fun key => key) (QueryCache.create None None) 100
        "answer" (JS.Num 42) None).2).
Proof.
  exact (proj2 (fresh_entry_is_served (fun key => key)
                  (fun s => if decide (s = "42") then Some (JS.Num 42)
                            else None)
                  (QueryCache.create None None) 100 3600100 "answer"
                  (JS.Num 42) "42" None eq_refl
                  ltac:(simpl; lia))).
Defined.

(** X18: an entry older than the time to live is dropped by the [get]
    that finds it: that [get] answers [null], the file of the key is gone
    afterwards, every other file is as it was, and a later [get] of the
    key is a plain miss. *)
Theorem expired_entry_is_dropped
  (sha256_hex : string -> string) (JSON_parse : string -> option JS.value)
  (c : QueryCache.t) (now later : Z) (key : string)
  (files : gmap string QueryCache.file) (stats : QueryCache.file) :
  files !! QueryCache.cacheFile sha256_hex key = Some stats ->
  QueryCache.ttl c < now - QueryCache.mtimeMs stats ->
  exists files',
    QueryCache.get sha256_hex JSON_parse c now key (Some files)
    = (JS.Null, Some files') /\
    files' !! QueryCache.cacheFile sha256_hex key = None /\
    (forall name, name <> QueryCache.cacheFile sha256_hex key ->
                  files' !! name = files !! name) /\
    QueryCache.get sha256_hex JSON_parse c later key (Some files')
    = (JS.Null, Some files').
Proof.
  intros Hf Hage. eexists. split; [now apply (get_expired _ _ _ _ _ _ stats)|].
  split; [apply lookup_delete_eq|]. split.
  - intros name Hne. now apply lookup_delete_ne.
  - apply get_miss, lookup_delete_eq.
Qed.

Lemma expired_entry_is_dropped_witness :
  QueryCache.get (fun key => key) (fun _ => Some (JS.Num 1))
    (QueryCache.create None (Some 1000)) 5000 "k"
    (Some {["k.json" := QueryCache.File "1" 100]})
  = (JS.Null, Some (delete "k.json" {["k.json" := QueryCache.File "1" 100]})).
Proof.
  destruct (expired_entry_is_dropped (fun key => key)
              (fun _ => Some (JS.Num 1))
              (QueryCache.create None (Some 1000)) 5000 5000 "k"
              {["k.json" := QueryCache.File "1" 100]}
              (QueryCache.File "1" 100)
              (lookup_singleton_eq _ _) ltac:(simpl; lia))
    as (files' & Hg & _).
  rewrite Hg. f_equal. 
  unfold QueryCache.get in Hg.
  change (QueryCache.cacheFile (fun key => key) "k") with "k.json" in Hg.
  rewrite lookup_singleton_eq in Hg. simpl in Hg.
  now injection Hg as <-.
Defined.

(** X19: what the [cached] decorator does with its three kinds of result.
    A result that is neither [null] nor [undefined] is run once and then
    served from the file, without running the method, until the entry is
    older than the time to live.  A [null] result is written but never
    served: the next call runs the method again, whenever it comes.  An
    [undefined] result makes the decorated call fail, although the method
    itself succeeded. *)
Theorem cached_decorator_by_result
  (sha256_hex : string -> string) (JSON_parse : string -> option JS.value)
  (c : QueryCache.t) (now later : Z) (propertyKey : string)
  (originalMethod : list JS.value -> JS.value) (arguments : list JS.value)
  (dir : QueryCache.directory) :
  JSON_parse "null" = Some JS.Null ->
  (QueryCache.get sha256_hex JSON_parse c now
     (QueryCache.createKey propertyKey (JS.Arr arguments)) dir).1 = JS.Null ->
  (forall text value,
      JS.JSON_stringify (originalMethod arguments) = Some text ->
      JSON_parse text = Some value ->
      value <> JS.Null ->
      later - now <= QueryCache.ttl c ->
      exists dir',
        QueryCache.cached_call sha256_hex JSON_parse c now propertyKey
          originalMethod arguments dir
        = (Fulfilled (originalMethod arguments), dir', true) /\
        QueryCache.cached_call sha256_hex JSON_parse c later propertyKey
          originalMethod arguments dir'
        = (Fulfilled value, dir', false)) /\
  (originalMethod arguments = JS.Null ->
   exists dir',
     QueryCache.cached_call sha256_hex JSON_parse c now propertyKey
       originalMethod arguments dir
     = (Fulfilled JS.Null, dir', true) /\
     (QueryCache.cached_call sha256_hex JSON_parse c later propertyKey
        originalMethod arguments dir').2 = true) /\
  (originalMethod arguments = JS.Undefined ->
   exists dir',
     QueryCache.cached_call sha256_hex JSON_parse c now propertyKey
       originalMethod arguments dir
     = (Rejected QueryCache.invalid_data, dir', true)).
Proof.
  intros Hnull Hmiss.
  set (cacheKey := QueryCache.createKey propertyKey (JS.Arr arguments)) in *.
  split; [|split].
  - intros text value Htext Hparse Hvalue Hage.
    unfold QueryCache.cached_call. fold cacheKey.
    destruct (QueryCache.get sha256_hex JSON_parse c now cacheKey dir)
      as [hit dir1] eqn:Hget.
    simpl in Hmiss. subst hit.
    pose proof (fresh_get := get_fresh sha256_hex JSON_parse c later cacheKey
                  (<[QueryCache.cacheFile sha256_hex cacheKey
                     := QueryCache.File text now]> (default ∅ dir1))
                  (QueryCache.File text now) (lookup_insert_eq _ _ _) Hage).
    unfold QueryCache.set. rewrite Htext. eexists. split; [reflexivity|].
    rewrite fresh_get. simpl. rewrite Hparse. simpl.
    destruct value; try reflexivity. contradiction.
  - intros Hres. unfold QueryCache.cached_call. fold cacheKey.
    destruct (QueryCache.get sha256_hex JSON_parse c now cacheKey dir)
      as [hit dir1] eqn:Hget.
    simpl in Hmiss. subst hit.
    unfold QueryCache.set. rewrite Hres. simpl JS.JSON_stringify. cbv iota.
    eexists. split; [reflexivity|].
    destruct (Z_le_gt_dec (later - now) (QueryCache.ttl c)) as [Hage|Hage].
    + rewrite (get_fresh sha256_hex JSON_parse c later cacheKey _
                 (QueryCache.File "null" now) (lookup_insert_eq _ _ _) Hage).
      simpl. rewrite Hnull. reflexivity.
    + rewrite (get_expired sha256_hex JSON_parse c later cacheKey _
                 (QueryCache.File "null" now) (lookup_insert_eq _ _ _));
        [|simpl; lia].
      reflexivity.
  - intros Hres. unfold QueryCache.cached_call. fold cacheKey.
    destruct (QueryCache.get sha256_hex JSON_parse c now cacheKey dir)
      as [hit dir1] eqn:Hget.
    simpl in Hmiss. subst hit.
    unfold QueryCache.set. rewrite Hres. simpl. eexists. reflexivity.
Qed.

Lemma cached_decorator_by_result_witness :
  exists dir',
    QueryCache.cached_call (fun key => key)
      (fun s => if decide (s = "null") then Some JS.Null else None)
      (QueryCache.create None None) 10 "listAccounts"
      (fun _ => JS.Null) [JS.Str "sub"] None
    = (Fulfilled JS.Null, dir', true) /\
    (QueryCache.cached_call (fun key => key)
       (fun s => if decide (s = "null") then Some JS.Null else None)
       (QueryCache.create None None) 20 "listAccounts"
       (fun _ => JS.Null) [JS.Str "sub"] dir').2 = true.
Proof.
  exact (proj1 (proj2 (cached_decorator_by_result (fun key => key)
                         (fun s => if decide (s = "null") then Some JS.Null
                                   else None)
                         (QueryCache.create None None) 10 20 "listAccounts"
                         (fun _ => JS.Null) [JS.Str "sub"] None
                         eq_refl eq_refl)) eq_refl).
Defined.

Section CacheStats.

Import QueryCache.

Lemma filter_none {A} (P : A -> Prop) `{forall x, Decision (P x)}
  (l : list A) :
  (forall x, x ∈ l -> ~ P x) -> filter P l = [].
Proof.
  induction l as [|a l IH]; intros Hall; [reflexivity|].
  rewrite filter_cons_False by (apply Hall, list_elem_of_here).
  apply IH. intros x Hx. apply Hall. now apply list_elem_of_further.
Qed.

(** What the loop of [getStats] has reached after the files [seen]. *)
Lemma count_files (seen : list file) :
  forall acc : cache_stats,
    (totalEntries acc = 0%nat ->
     oldestEntry acc = None /\ newestEntry acc = None) ->
    (forall o, oldestEntry acc = Some o ->
               exists n, newestEntry acc = Some n /\ o <= n) ->
    0 <= totalSize acc ->
    let result := fold_left count_file seen acc in
    totalEntries result = (totalEntries acc + length seen)%nat /\
    0 <= totalSize result /\
    (totalEntries result = 0%nat ->
     oldestEntry result = None /\ newestEntry result = None) /\
    (forall stats, stats ∈ seen ->
       exists o n, oldestEntry result = Some o /\
                   newestEntry result = Some n /\
                   o <= mtimeMs stats <= n) /\
    (forall o n, oldestEntry acc = Some o -> newestEntry acc = Some n ->
       exists o' n', oldestEntry result = Some o' /\
                     newestEntry result = Some n' /\ o' <= o /\ n <= n').
Proof.
  induction seen as [|stats seen IH]; intros acc Hzero Hpair Hsize; simpl.
  - repeat split; try assumption; try lia.
    + now apply Hzero.
    + now apply Hzero.
    + intros stats Hin. now apply elem_of_nil in Hin.
    + intros o n Ho Hn. exists o, n. repeat split; try assumption; lia.
  - assert (Hstep : exists o n,
               oldestEntry (count_file acc stats) = Some o /\
               newestEntry (count_file acc stats) = Some n /\
               o <= mtimeMs stats <= n /\
               (forall o0 n0, oldestEntry acc = Some o0 ->
                              newestEntry acc = Some n0 ->
                              o <= o0 /\ n0 <= n)).
    { unfold count_file. simpl.
      destruct (oldestEntry acc) as [o0|] eqn:Ho.
      - destruct (Hpair o0 eq_refl) as (n0 & Hn & Hle). rewrite Hn.
        repeat case_decide; eexists _, _;
          (split; [reflexivity|]); (split; [reflexivity|]);
          (split; [lia|]); intros ? ? [= <-] [= <-]; lia.
      - destruct (newestEntry acc) as [n0|] eqn:Hn.
        + case_decide; eexists _, _;
            (split; [reflexivity|]); (split; [reflexivity|]);
            (split; [lia|]); intros ? ?; discriminate.
        + eexists _, _. repeat split; try reflexivity; try lia;
            intros; discriminate. }
    destruct Hstep as (o1 & n1 & Ho1 & Hn1 & Hbr & Hext).
    destruct (IH (count_file acc stats)) as (Hcount & Hsz & Hz & Hall & Hmono).
    + simpl. discriminate.
    + intros o Ho. rewrite Ho1 in Ho. injection Ho as <-.
      exists n1. split; [assumption | lia].
    + simpl. lia.
    + destruct (Hmono o1 n1 Ho1 Hn1) as (o' & n' & Ho' & Hn' & Hlo & Hhi).
      split; [simpl in Hcount; lia|]. split; [assumption|].
      split; [assumption|]. split.
      * intros f Hin. apply elem_of_cons in Hin as [->|Hin].
        -- exists o', n'. repeat split; try assumption; lia.
        -- now apply Hall.
      * intros o n Ho Hn. destruct (Hext o n Ho Hn).
        exists o', n'. repeat split; try assumption; lia.
Qed.

End CacheStats.

(** X20: [clearAll] empties the cache and nothing else: afterwards every
    key is a miss and [getStats] reports no entry, while every file whose
    name does not end in [.json] is as it was. *)
Theorem clearAll_empties_the_cache
  (sha256_hex : string -> string) (JSON_parse : string -> option JS.value)
  (c : QueryCache.t) (dir : QueryCache.directory) :
  (forall now key,
      (QueryCache.get sha256_hex JSON_parse c now key
         (QueryCache.clearAll c dir)).1 = JS.Null) /\
  QueryCache.getStats c (QueryCache.clearAll c dir) = QueryCache.no_stats /\
  (forall files name,
      dir = Some files ->
      QueryCache.endsWith name ".json" = false ->
      exists files',
        QueryCache.clearAll c dir = Some files' /\
        files' !! name = files !! name).
Proof.
  split; [|split].
  - intros now key. destruct dir as [files|]; [|reflexivity].
    unfold QueryCache.clearAll.
    rewrite (get_miss sha256_hex JSON_parse); [reflexivity|].
    apply map_lookup_filter_None_2. right. intros stats _. simpl.
    rewrite cacheFile_is_json. discriminate.
  - destruct dir as [files|]; [|reflexivity].
    unfold QueryCache.clearAll, QueryCache.getStats.
    rewrite filter_none; [reflexivity|].
    intros [name stats] Hin. apply elem_of_map_to_list in Hin.
    apply map_lookup_filter_Some_1_2 in Hin. simpl in *. congruence.
  - intros files name -> Hname. eexists. split; [reflexivity|].
    destruct (files !! name) as [stats|] eqn:Hf.
    + now apply map_lookup_filter_Some_2.
    + apply map_lookup_filter_None_2. now left.
Qed.

Lemma clearAll_empties_the_cache_witness :
  QueryCache.endsWith "notes.txt" ".json" = false /\
  exists files',
    QueryCache.clearAll (QueryCache.create None None)
      (Some {["notes.txt" := QueryCache.File "keep" 1]}) = Some files' /\
    files' !! "notes.txt" = Some (QueryCache.File "keep" 1).
Proof.
  assert (Hname : QueryCache.endsWith "notes.txt" ".json" = false)
    by reflexivity.
  split; [exact Hname|].
  destruct (proj2 (proj2 (clearAll_empties_the_cache (fun key => key)
                            (fun _ => None) (QueryCache.create None None)
                            (Some {["notes.txt" := QueryCache.File "keep" 1]})))
              _ "notes.txt" eq_refl Hname) as (files' & Hc & Hl).
  exists files'. split; [exact Hc|]. rewrite Hl. apply lookup_singleton_eq.
Defined.

(** X21: the figures of [getStats] fit together: [totalEntries] is the
    number of files whose name ends in [.json], [totalSize] is not
    negative, with no entry both dates are [null], and otherwise the
    oldest and the newest date bracket the date of every such file. *)
Theorem stats_bracket_every_entry
  (c : QueryCache.t) (files : gmap string QueryCache.file) :
  QueryCache.totalEntries (QueryCache.getStats c (Some files))
  = length (filter (fun entry => QueryCache.endsWith entry.1 ".json" = true)
                   (map_to_list files)) /\
  0 <= QueryCache.totalSize (QueryCache.getStats c (Some files)) /\
  (QueryCache.totalEntries (QueryCache.getStats c (Some files)) = 0%nat ->
   QueryCache.oldestEntry (QueryCache.getStats c (Some files)) = None /\
   QueryCache.newestEntry (QueryCache.getStats c (Some files)) = None) /\
  (forall name stats,
      files !! name = Some stats ->
      QueryCache.endsWith name ".json" = true ->
      exists oldest newest,
        QueryCache.oldestEntry (QueryCache.getStats c (Some files))
        = Some oldest /\
        QueryCache.newestEntry (QueryCache.getStats c (Some files))
        = Some newest /\
        oldest <= QueryCache.mtimeMs stats <= newest).
Proof.
  unfold QueryCache.getStats.
  set (jsonFiles := filter
         (fun entry : string * QueryCache.file =>
            QueryCache.endsWith entry.1 ".json" = true) (map_to_list files)).
  destruct (count_files (map snd jsonFiles) QueryCache.no_stats)
    as (Hcount & Hsize & Hzero & Hall & _).
  { intros _. split; reflexivity. }
  { intros o; discriminate. }
  { simpl. lia. }
  cbv zeta in *. split; [|split; [|split]].
  - rewrite Hcount. simpl. now rewrite length_map.
  - exact Hsize.
  - exact Hzero.
  - intros name stats Hf Hname. apply Hall.
    apply (list_elem_of_fmap_2 snd jsonFiles (name, stats)).
    apply list_elem_of_filter. split; [exact Hname|].
    now apply elem_of_map_to_list.
Qed.

Lemma stats_bracket_every_entry_witness :
  QueryCache.getStats (QueryCache.create None None)
    (Some {["a.json" := QueryCache.File "12" 50]})
  = {| QueryCache.totalEntries := 1; QueryCache.totalSize := 2;
       QueryCache.oldestEntry := Some 50;
       QueryCache.newestEntry := Some 50 |} /\
  exists oldest newest,
    QueryCache.oldestEntry
      (QueryCache.getStats (QueryCache.create None None)
         (Some {["a.json" := QueryCache.File "12" 50]})) = Some oldest /\
    QueryCache.newestEntry
      (QueryCache.getStats (QueryCache.create None None)
         (Some {["a.json" := QueryCache.File "12" 50]})) = Some newest /\
    oldest <= 50 <= newest.
Proof.
  split; [reflexivity|].
  exact (proj2 (proj2 (proj2 (stats_bracket_every_entry
                                (QueryCache.create None None)
                                {["a.json" := QueryCache.File "12" 50]})))
           "a.json" (QueryCache.File "12" 50)
           (lookup_singleton_eq _ _) eq_refl).
Defined.

(** X22: keys whose files differ do not disturb each other: storing or
    clearing one key changes neither the answer of [get] for the other
    nor, for [set], any other file. *)
Theorem cache_keys_are_kept_apart
  (sha256_hex : string -> string) (JSON_parse : string -> option JS.value)
  (c : QueryCache.t) (stored now : Z) (key other : string) (value : JS.value)
  (files : gmap string QueryCache.file) :
  QueryCache.cacheFile sha256_hex key
  <> QueryCache.cacheFile sha256_hex other ->
  (QueryCache.get sha256_hex JSON_parse c now other
     (QueryCache.set sha256_hex c stored key value (Some files)).2).1
  = (QueryCache.get sha256_hex JSON_parse c now other (Some files)).1 /\
  (QueryCache.get sha256_hex JSON_parse c now other
     (QueryCache.clear sha256_hex c key (Some files))).1
  = (QueryCache.get sha256_hex JSON_parse c now other (Some files)).1.
Proof.
  intros Hne. split.
  - unfold QueryCache.set, QueryCache.get.
    destruct (JS.JSON_stringify value) as [text|]; simpl; [|reflexivity].
    rewrite lookup_insert_ne by assumption.
    destruct (files !! _) as [stats|]; [|reflexivity].
    case_decide; [reflexivity|].
    now destruct (JSON_parse _).
  - unfold QueryCache.clear, QueryCache.get.
    rewrite lookup_delete_ne by assumption.
    destruct (files !! _) as [stats|]; [|reflexivity].
    case_decide; [reflexivity|].
    now destruct (JSON_parse _).
Qed.

Lemma cache_keys_are_kept_apart_witness :
  QueryCache.cacheFile (fun key => key) "a"
  <> QueryCache.cacheFile (fun key => key) "b" /\
  (QueryCache.get (fun key => key) (fun _ => Some (JS.Num 7))
     (QueryCache.create None None) 10 "b"
     (QueryCache.set (fun key => key) (QueryCache.create None None) 5 "a"
        (JS.Num 1) (Some {["b.json" := QueryCache.File "7" 0]})).2).1
  = JS.Num 7.
Proof.
  assert (Hne : QueryCache.cacheFile (fun key => key) "a"
                <> QueryCache.cacheFile (fun key => key) "b")
    by discriminate.
  split; [exact Hne|].
  rewrite (proj1 (cache_keys_are_kept_apart (fun key => key)
                    (fun _ => Some (JS.Num 7)) (QueryCache.create None None)
                    5 10 "a" "b" (JS.Num 1)
                    {["b.json" := QueryCache.File "7" 0]} Hne)).
  reflexivity.
Defined.

(** * Names made by the generator *)

Section Names.

Import Generator.

Ltac by_cases c :=
  destruct c as [[] [] [] [] [] [] [] []]; vm_compute;
  try reflexivity; try discriminate; auto.

Lemma lower_not_upper (c : ascii) : is_upper (lower c) = false.
Proof. by_cases c. Qed.

Lemma lower_keeps_blank (c : ascii) : is_blank (lower c) = is_blank c.
Proof. by_cases c. Qed.

Lemma lower_plain (c : ascii) : is_upper c = false -> lower c = c.
Proof. unfold lower. now intros ->. Qed.

Lemma lower_keeps_separator (c : ascii) :
  is_separator c = false -> is_separator (lower c) = false.
Proof. by_cases c. Qed.

Lemma upper_keeps_separator (c : ascii) :
  is_separator c = false -> is_separator (upper c) = false.
Proof. by_cases c. Qed.

Lemma dash_is_no_blank : is_blank "-" = false.
Proof. reflexivity. Qed.

Lemma blanks_are_dashed (str : string) (inside : bool) :
  every (fun c => negb (is_blank c)) (dash_for_blanks inside str) = true.
Proof.
  revert inside. induction str as [|c str IH]; intros inside; [reflexivity|].
  simpl. destruct (is_blank c) eqn:Hc.
  - destruct inside; [apply IH|]. simpl. apply IH.
  - simpl. rewrite Hc. simpl. apply IH.
Qed.

Lemma lowered_is_plain (str : string) :
  every (fun c => negb (is_blank c)) str = true ->
  every plain (toLowerCase str) = true.
Proof.
  induction str as [|c str IH]; [reflexivity|]. simpl.
  intros H. apply andb_true_iff in H as [Hc Hrest].
  unfold plain at 1. rewrite lower_not_upper, lower_keeps_blank, Hc. simpl.
  now apply IH.
Qed.

Lemma plain_has_no_prefix (str : string) :
  every plain str = true -> remove_prefix str = str.
Proof.
  unfold remove_prefix. destruct str as [|c str]; [reflexivity|].
  simpl. intros H. apply andb_true_iff in H as [Hc _].
  case_decide as Hp; [|reflexivity]. subst c. discriminate.
Qed.

Lemma plain_has_no_capital (str : string) :
  every plain str = true -> dash_before_capitals str = str.
Proof.
  induction str as [|a str IH]; [reflexivity|]. intros H.
  simpl in H. apply andb_true_iff in H as [Ha Hrest].
  specialize (IH Hrest). simpl. destruct str as [|b str]; [reflexivity|].
  simpl in Hrest. apply andb_true_iff in Hrest as [Hb _].
  unfold plain in Hb. apply andb_true_iff in Hb as [Hb _].
  apply negb_true_iff in Hb. rewrite Hb, andb_false_r. now rewrite IH.
Qed.

Lemma plain_has_no_blank (str : string) :
  every plain str = true -> dash_for_blanks false str = str.
Proof.
  induction str as [|c str IH]; [reflexivity|]. intros H.
  simpl in H. apply andb_true_iff in H as [Hc Hrest].
  unfold plain in Hc. apply andb_true_iff in Hc as [_ Hc].
  apply negb_true_iff in Hc. simpl. rewrite Hc. now rewrite IH.
Qed.

Lemma plain_is_lowered (str : string) :
  every plain str = true -> toLowerCase str = str.
Proof.
  induction str as [|c str IH]; [reflexivity|]. intros H.
  simpl in H. apply andb_true_iff in H as [Hc Hrest].
  unfold plain in Hc. apply andb_true_iff in Hc as [Hc _].
  apply negb_true_iff in Hc. simpl. rewrite (lower_plain c Hc).
  now rewrite IH.
Qed.

Lemma toFileName_plain (str : string) : every plain (toFileName str) = true.
Proof. unfold toFileName. apply lowered_is_plain, blanks_are_dashed. Qed.

Lemma every_append (p : ascii -> bool) (a b : string) :
  every p (a +:+ b) = every p a && every p b.
Proof.
  induction a as [|c a IH]; [reflexivity|].
  change (String c a +:+ b) with (String c (a +:+ b)). simpl.
  now rewrite IH, andb_assoc.
Qed.

Lemma words_have_no_separator (str : string) :
  Forall (fun word => every (fun c => negb (is_separator c)) word = true)
         (split str).
Proof.
  induction str as [|c str IH]; simpl.
  - constructor; [reflexivity | constructor].
  - destruct (is_separator c) eqn:Hc.
    + constructor; [reflexivity | assumption].
    + destruct (split str) as [|word words]; simpl.
      * constructor; [simpl; now rewrite Hc | constructor].
      * inversion IH; subst. constructor; [|assumption].
        simpl. rewrite Hc. simpl. assumption.
Qed.

Lemma pascal_has_no_separator (str : string) :
  every (fun c => negb (is_separator c)) (toPascalCase str) = true.
Proof.
  unfold toPascalCase.
  pose proof (words_have_no_separator (remove_prefix str)) as Hwords.
  induction Hwords as [|word words Hword _ IH]; [reflexivity|].
  assert (Hcap : every (fun c => negb (is_separator c)) (capitalize word)
                 = true).
  { destruct word as [|c word]; [reflexivity|]. simpl in *.
    apply andb_true_iff in Hword as [Hc Hw]. apply negb_true_iff in Hc.
    now rewrite (upper_keeps_separator c Hc), Hw. }
  simpl. destruct (map capitalize words) as [|w ws] eqn:Hm.
  - exact Hcap.
  - change (String.concat "" (capitalize word :: w :: ws))
      with (capitalize word +:+ "" +:+ String.concat "" (w :: ws)).
    rewrite !every_append, Hcap, IH. reflexivity.
Qed.

End Names.

(** X23: a file name made by [toFileName] is kebab-case: whatever the tool
    name, it holds no capital letter, no underscore and no white space;
    and [toFileName] leaves such a name as it is, so applying it twice is
    the same as applying it once. *)
Theorem file_names_are_kebab_case (str : string) :
  Generator.every Generator.plain (Generator.toFileName str) = true /\
  Generator.toFileName (Generator.toFileName str) = Generator.toFileName str.
Proof.
  pose proof (toFileName_plain str) as Hplain. split; [exact Hplain|].
  unfold Generator.toFileName at 1.
  rewrite (plain_has_no_prefix _ Hplain), (plain_has_no_capital _ Hplain),
    (plain_has_no_blank _ Hplain), (plain_is_lowered _ Hplain).
  reflexivity.
Qed.

(** X24: the identifiers made by [toPascalCase] and [toCamelCase] hold
    neither underscore nor dash, whatever the tool name. *)
Theorem identifiers_have_no_separator (str : string) :
  Generator.every (fun c => negb (Generator.is_separator c))
    (Generator.toPascalCase str) = true /\
  Generator.every (fun c => negb (Generator.is_separator c))
    (Generator.toCamelCase str) = true.
Proof.
  split; [apply pascal_has_no_separator|].
  unfold Generator.toCamelCase.
  pose proof (pascal_has_no_separator (Generator.remove_prefix str)) as H.
  destruct (Generator.toPascalCase (Generator.remove_prefix str))
    as [|c rest]; [reflexivity|].
  simpl in *. apply andb_true_iff in H as [Hc Hrest].
  apply negb_true_iff in Hc.
  now rewrite (lower_keeps_separator c Hc), Hrest.
Qed.

(** * Accounts at risk *)

Section AtRisk.

Import EngagementScoring.

Lemma insert_by_score_perm (a : EngagementScore) (l : list EngagementScore) :
  insert_by_score a l ≡ₚ a :: l.
Proof.
  induction l as [|b l IH]; [reflexivity|]. simpl.
  case_decide; [reflexivity|]. rewrite IH. apply Permutation_swap.
Qed.

Lemma sort_by_score_perm (l : list EngagementScore) : sort_by_score l ≡ₚ l.
Proof.
  induction l as [|a l IH]; [reflexivity|]. simpl.
  rewrite insert_by_score_perm. now rewrite IH.
Qed.

Lemma insert_by_score_sorted (a : EngagementScore)
  (l : list EngagementScore) :
  StronglySorted (fun x y => score x <= score y) l ->
  StronglySorted (fun x y => score x <= score y) (insert_by_score a l).
Proof.
  induction l as [|b l IH]; intros Hl; simpl.
  - repeat constructor.
  - inversion Hl as [|? ? Hrest Hall]; subst. case_decide.
    + constructor; [assumption|]. constructor; [lia|].
      eapply Forall_impl; [exact Hall|]. simpl. intros; lia.
    + constructor; [now apply IH|].
      rewrite insert_by_score_perm. constructor; [lia | assumption].
Qed.

Lemma sort_by_score_sorted (l : list EngagementScore) :
  StronglySorted (fun x y => score x <= score y) (sort_by_score l).
Proof.
  induction l as [|a l IH]; simpl; [constructor|].
  now apply insert_by_score_sorted.
Qed.

End AtRisk.

(** X25: [findAtRiskAccounts] returns exactly the accounts whose score is
    below the threshold, each as often as it occurs in the scores, in
    ascending order of score; a threshold that is left out or 0 counts as
    40, so a threshold of 0 does not give the empty list. *)
Theorem at_risk_accounts_are_sorted_and_complete
  (scores : list EngagementScoring.EngagementScore) (threshold : option Z) :
  EngagementScoring.findAtRiskAccounts scores threshold
  ≡ₚ filter (fun s => EngagementScoring.score s
                      < EngagementScoring.threshold_or_default threshold)
            scores /\
  StronglySorted
    (fun x y => EngagementScoring.score x <= EngagementScoring.score y)
    (EngagementScoring.findAtRiskAccounts scores threshold) /\
  (forall s,
      s ∈ EngagementScoring.findAtRiskAccounts scores threshold <->
      s ∈ scores /\
      EngagementScoring.score s
      < EngagementScoring.threshold_or_default threshold) /\
  EngagementScoring.findAtRiskAccounts scores (Some 0)
  = EngagementScoring.findAtRiskAccounts scores (Some 40).
Proof.
  unfold EngagementScoring.findAtRiskAccounts. split; [|split; [|split]].
  - apply sort_by_score_perm.
  - apply sort_by_score_sorted.
  - intros s. rewrite sort_by_score_perm, list_elem_of_filter. tauto.
  - reflexivity.
Qed.

(** * Activity by entity type *)

Section ByType.

Import MultiEntity.

Context {D : Type}.

Lemma by_type_fold (results : list (string * D)) (acc : gmap string D)
  (type : string) :
  fold_left (fun acc result => <[result.1 := result.2]> acc) results acc
    !! type
  = match last (filter (fun result => result.1 = type) results) with
    | Some result => Some result.2
    | None => acc !! type
    end.
Proof.
  revert acc. induction results as [|[t d] results IH]; intros acc;
    [reflexivity|].
  simpl. rewrite IH. rewrite filter_cons. simpl.
  destruct (decide (t = type)) as [->|Hne].
  - rewrite last_cons.
    destruct (last (filter _ results)); [reflexivity|].
    simpl. now rewrite lookup_insert_eq.
  - destruct (last (filter _ results)); [reflexivity|].
    now rewrite lookup_insert_ne.
Qed.

End ByType.

(** X26: in the object returned by [getMultiEntityActivity] a type holds
    the answer of the last entity listed with that type: when two entities
    share a type, the answer for the earlier one is lost; a type that no
    entity has is absent. *)
Theorem last_entity_of_a_type_wins
  {D : Type} (activityQuery : string -> list string -> D)
  (entities : list (string * list string)) (type : string) :
  MultiEntity.getMultiEntityActivity activityQuery entities !! type
  = match last (filter (fun entity => entity.1 = type) entities) with
    | Some entity => Some (activityQuery type entity.2)
    | None => None
    end.
Proof.
  unfold MultiEntity.getMultiEntityActivity, MultiEntity.by_type.
  rewrite by_type_fold, lookup_empty.
  induction entities as [|[t ids] entities IH]; [reflexivity|].
  simpl. rewrite !filter_cons. simpl.
  destruct (decide (t = type)) as [->|Hne]; [|exact IH].
  rewrite !last_cons.
  destruct (last (filter _ (map _ entities))) as [r|] eqn:Hr;
    destruct (last (filter _ entities)) as [e|] eqn:He;
    simpl in *; congruence.
Qed.
